(** * extendSchema: a shallow embedding of src/src/utilities/extendSchema.ts

    The schema-extension engine of iris-js: [extendSchemaImpl] takes a
    schema configuration and a document and returns a new configuration
    (or the original one by identity).

    Modelling choices, following the TypeScript source:
    - JS objects used as maps ([Object.create(null)], [mapValue], object
      spread) are association lists with JS assignment semantics: writing an
      existing key overwrites it in place, a new key is appended.
    - A thrown [Error] is the [Error] branch of a small error monad.
    - Deferred bodies ([fields: () => ...]) are Rocq closures [unit -> Result _];
      they run only when read ([force]).
    - A resolved named type is a reference to a registry entry: [StdRef n] is
      [stdTypeMap[n]], [RegRef n] is [typeMap[n]] of the registry the closure
      captured.  Closures capture the per-call [typeMap]; they only ever read
      it after seeding is complete, so they are closed over its final keys.
    - Schema configurations are JS objects with identity: they live in a heap
      ([list SchemaConfig], a location is an index) and [extendSchemaImpl]
      returns a location. *)

From Stdlib Require Import String List Bool Arith Lia.
Import ListNotations.
Open Scope string_scope.
Open Scope list_scope.

(** ** Errors and the error monad *)

Inductive Error :=
| UnknownType (name : string)        (* new Error(`Unknown type: "${name}".`) *)
| TypeError (msg : string)           (* a JS TypeError, e.g. reading a property of undefined *)
| Invariant (msg : string).          (* invariant(false, ...) *)

Inductive Result (A : Type) :=
| Ok (a : A)
| Err (e : Error).
Arguments Ok {A} a.
Arguments Err {A} e.

Definition bind {A B} (m : Result A) (k : A -> Result B) : Result B :=
  match m with
  | Ok a => k a
  | Err e => Err e
  end.

Notation "x <- m ;; k" := (bind m (fun x => k))
  (at level 61, m at next level, right associativity).

Fixpoint mapM {A B} (f : A -> Result B) (l : list A) : Result (list B) :=
  match l with
  | [] => Ok []
  | x :: l' => y <- f x ;; ys <- mapM f l' ;; Ok (y :: ys)
  end.

(** [a ?? b] on an optional value *)
Definition coalesce {A} (o : option A) (d : A) : A :=
  match o with Some a => a | None => d end.

(** [a ?? b] where both sides are optional *)
Definition orElse {A} (o : option A) (d : option A) : option A :=
  match o with Some a => Some a | None => d end.

(** ** JS objects with string keys *)

Module Obj.
Definition t (A : Type) := list (string * A).

Fixpoint get {A} (k : string) (o : t A) : option A :=
  match o with
  | [] => None
  | (k', v) :: o' => if String.eqb k k' then Some v else get k o'
  end.

(** [o[k] = v] *)
Fixpoint set {A} (k : string) (v : A) (o : t A) : t A :=
  match o with
  | [] => [(k, v)]
  | (k', v') :: o' => if String.eqb k k' then (k, v) :: o' else (k', v') :: set k v o'
  end.

(** [{...o1, ...o2}] *)
Definition assign {A} (o1 o2 : t A) : t A :=
  fold_left (fun acc kv => set (fst kv) (snd kv) acc) o2 o1.

(** [mapValue(o, f)] *)
Definition mapValue {A B} (o : t A) (f : A -> B) : t B :=
  map (fun kv => (fst kv, f (snd kv))) o.

Definition keys {A} (o : t A) : list string := map fst o.
Definition values {A} (o : t A) : list A := map snd o.
End Obj.

(** ** The syntax tree (language/ast) *)

Inductive TypeNode :=
| NamedTypeNode (name : string)
| ListTypeNode (type : TypeNode)
| NonNullTypeNode (type : TypeNode).

(** Directive applications are read through the external coercion
    [getDirectiveValues]; a node records what it returns for the two
    well-known directives: the [reason] of [@deprecated] and the [url] of
    [@specifiedBy]. *)
Record InputValueDefinitionNode := {
  iv_name : string;
  iv_description : option string;
  iv_type : TypeNode;
  iv_defaultValue : option string;
  iv_deprecated : option string
}.

Record FieldDefinitionNode := {
  fd_name : string;
  fd_description : option string;
  fd_arguments : option (list InputValueDefinitionNode);
  fd_type : TypeNode;
  fd_deprecated : option string
}.

Record VariantDefinitionNode := {
  vd_name : string;
  vd_description : option string;
  vd_fields : option (list InputValueDefinitionNode);
  vd_deprecated : option string
}.

(** shared by ObjectTypeDefinition and InterfaceTypeDefinition *)
Record ObjectTypeDefinitionNode := {
  od_name : string;
  od_description : option string;
  od_interfaces : option (list string);
  od_fields : option (list FieldDefinitionNode)
}.

Record UnionTypeDefinitionNode := {
  ud_name : string;
  ud_description : option string;
  ud_types : option (list string)
}.

Record ScalarTypeDefinitionNode := {
  sd_name : string;
  sd_description : option string;
  sd_specifiedBy : option string
}.

Record DataTypeDefinitionNode := {
  dd_name : string;
  dd_description : option string;
  dd_variants : list VariantDefinitionNode
}.

Inductive TypeDefinitionNode :=
| ObjectTypeDefinition (n : ObjectTypeDefinitionNode)
| InterfaceTypeDefinition (n : ObjectTypeDefinitionNode)
| UnionTypeDefinition (n : UnionTypeDefinitionNode)
| ScalarTypeDefinition (n : ScalarTypeDefinitionNode)
| DataTypeDefinition (n : DataTypeDefinitionNode).

Definition typeDefName (t : TypeDefinitionNode) : string :=
  match t with
  | ObjectTypeDefinition n | InterfaceTypeDefinition n => od_name n
  | UnionTypeDefinition n => ud_name n
  | ScalarTypeDefinition n => sd_name n
  | DataTypeDefinition n => dd_name n
  end.

Record DirectiveDefinitionNode := {
  dirn_name : string;
  dirn_description : option string;
  dirn_locations : list string;
  dirn_repeatable : bool;
  dirn_arguments : option (list InputValueDefinitionNode)
}.

Inductive OperationTypeNode := QUERY | MUTATION | SUBSCRIPTION.

Definition OperationTypeNode_eqb (a b : OperationTypeNode) : bool :=
  match a, b with
  | QUERY, QUERY | MUTATION, MUTATION | SUBSCRIPTION, SUBSCRIPTION => true
  | _, _ => false
  end.

Record OperationTypeDefinitionNode := {
  otd_operation : OperationTypeNode;
  otd_type : string
}.

Record SchemaDefinitionNode := {
  schd_description : option string;
  schd_operationTypes : option (list OperationTypeDefinitionNode)
}.

(** A definition of a document.  Extension fragments mirror the shape of a
    type definition and target a type by its name; other definitions
    (operations, fragments, schema extensions) are [OtherDefinition]. *)
Inductive DefinitionNode :=
| SchemaDefinition (n : SchemaDefinitionNode)
| TypeDefinition (n : TypeDefinitionNode)
| DirectiveDefinition (n : DirectiveDefinitionNode)
| TypeExtension (n : TypeDefinitionNode)
| OtherDefinition.

Record DocumentNode := { definitions : list DefinitionNode }.

(** ** Runtime schema values (type/definition, type/directives, type/schema) *)

(** A resolved named-type reference: the instance [stdTypeMap[name]] or the
    entry [typeMap[name]] of the registry a closure captured. *)
Inductive Ref :=
| StdRef (name : string)
| RegRef (name : string).

Definition refName (r : Ref) : string :=
  match r with StdRef n | RegRef n => n end.

Inductive GraphQLType :=
| TNamed (r : Ref)
| TList (ofType : GraphQLType)
| TNonNull (ofType : GraphQLType).

(** argument and input-field configuration *)
Record ArgumentConfig := {
  arg_type : GraphQLType;
  arg_description : option string;
  arg_defaultValue : option string;
  arg_deprecationReason : option string;
  arg_astNode : option InputValueDefinitionNode
}.

Record FieldConfig := {
  fc_type : GraphQLType;
  fc_description : option string;
  fc_args : Obj.t ArgumentConfig;
  fc_deprecationReason : option string;
  fc_astNode : option FieldDefinitionNode
}.

Record EnumValueConfig := {
  ev_description : option string;
  ev_deprecationReason : option string;
  ev_astNode : option VariantDefinitionNode
}.

(** a deferred body [() => ...] and reading it *)
Definition Thunk (A : Type) := unit -> Result A.
Definition force {A} (t : Thunk A) : Result A := t tt.

(** [IrisDataType] is a record (input [fields], deferred) or a sum (enum
    [values]) *)
Inductive DataShape :=
| DataFields (fields : Thunk (Obj.t ArgumentConfig))
| DataValues (values : Obj.t EnumValueConfig).

Inductive NamedType :=
| BuiltinType (name : string)
| ScalarType (name : string) (description : option string)
    (specifiedByURL : option string) (astNode : option ScalarTypeDefinitionNode)
| ObjectType (name : string) (description : option string)
    (interfaces : Thunk (list Ref)) (fields : Thunk (Obj.t FieldConfig))
    (astNode : option ObjectTypeDefinitionNode)
| InterfaceType (name : string) (description : option string)
    (interfaces : Thunk (list Ref)) (fields : Thunk (Obj.t FieldConfig))
    (astNode : option ObjectTypeDefinitionNode)
| UnionType (name : string) (description : option string)
    (types : Thunk (list Ref)) (astNode : option UnionTypeDefinitionNode)
| DataType (name : string) (description : option string)
    (shape : DataShape) (astNode : option DataTypeDefinitionNode).

Definition typeName (t : NamedType) : string :=
  match t with
  | BuiltinType n | ScalarType n _ _ _ | ObjectType n _ _ _ _
  | InterfaceType n _ _ _ _ | UnionType n _ _ _ | DataType n _ _ _ => n
  end.

Record GraphQLDirective := {
  dir_name : string;
  dir_description : option string;
  dir_locations : list string;
  dir_isRepeatable : bool;
  dir_args : Obj.t ArgumentConfig;
  dir_astNode : option DirectiveDefinitionNode
}.

(** [GraphQLSchemaNormalizedConfig] *)
Record SchemaConfig := {
  sc_description : option string;
  sc_query : option Ref;
  sc_mutation : option Ref;
  sc_subscription : option Ref;
  sc_types : list NamedType;
  sc_directives : list GraphQLDirective;
  sc_extensions : Obj.t string;
  sc_astNode : option SchemaDefinitionNode;
  sc_assumeValid : bool
}.

Record Options := {
  opt_assumeValid : option bool;
  opt_assumeValidSDL : option bool
}.

(** JS object identity of configurations: a heap of configuration objects *)
Definition Heap := list SchemaConfig.
Definition Loc := nat.

Definition deref (h : Heap) (l : Loc) : Result SchemaConfig :=
  match nth_error h l with
  | Some c => Ok c
  | None => Err (TypeError "Cannot read properties of undefined")
  end.

(** ** The builtin registry [stdTypeMap] *)

(** Modelled from the spec: the fixed builtin registry of type/scalars and
    type/introspection (not under src/), "a fixed, statically initialized set
    of primitive/reflective types"; [isSpecifiedScalarType] and
    [isIntrospectionType] test a type's name against it. *)
Definition specifiedScalarNames : list string :=
  ["Int"; "Float"; "String"; "Boolean"; "ID"].

Definition introspectionNames : list string :=
  ["__Schema"; "__Directive"; "__DirectiveLocation"; "__Type"; "__Field";
   "__InputValue"; "__EnumValue"; "__TypeKind"].

Definition isStdName (name : string) : bool :=
  existsb (String.eqb name) (specifiedScalarNames ++ introspectionNames).

(** [stdTypeMap[name]] *)
Definition stdTypeMap (name : string) : option NamedType :=
  if isStdName name then Some (BuiltinType name) else None.

(** [isIntrospectionType(type) || isSpecifiedScalarType(type)] *)
Definition isBuiltinType (t : NamedType) : bool := isStdName (typeName t).

(** ** Closures of [extendSchemaImpl] that read the registry *)

(** the per-call registry as a closure sees it: the keys of [typeMap] *)
Definition Registry := list string.

(** Modelled from the spec: [valueFromAST], the external literal-to-value
    conversion; the default literal is carried as it is. *)
Definition valueFromAST (lit : option string) (_ : GraphQLType) : option string := lit.

(** [getDeprecationReason] and [getSpecifiedByURL] *)
Definition getDeprecationReason_iv (n : InputValueDefinitionNode) := iv_deprecated n.
Definition getDeprecationReason_fd (n : FieldDefinitionNode) := fd_deprecated n.
Definition getDeprecationReason_vd (n : VariantDefinitionNode) := vd_deprecated n.

Definition getSpecifiedByURL (node : TypeDefinitionNode) : option string :=
  match node with
  | ScalarTypeDefinition n => sd_specifiedBy n
  | _ => None
  end.

(** the optional list properties read off a node ([node.fields], ...);
    [None] where the node has no such property *)
Definition nodeFields (node : TypeDefinitionNode) : option (list FieldDefinitionNode) :=
  match node with
  | ObjectTypeDefinition n | InterfaceTypeDefinition n => od_fields n
  | _ => None
  end.

Definition nodeInterfaces (node : TypeDefinitionNode) : option (list string) :=
  match node with
  | ObjectTypeDefinition n | InterfaceTypeDefinition n => od_interfaces n
  | _ => None
  end.

Definition nodeTypes (node : TypeDefinitionNode) : option (list string) :=
  match node with
  | UnionTypeDefinition n => ud_types n
  | _ => None
  end.

Definition nodeVariants (node : TypeDefinitionNode) : option (list VariantDefinitionNode) :=
  match node with
  | DataTypeDefinition n => Some (dd_variants n)
  | _ => None
  end.

(** [replaceNamedType]: [typeMap[type.name]] *)
Definition replaceNamedType (r : Ref) : Ref := RegRef (refName r).

Fixpoint replaceType (t : GraphQLType) : GraphQLType :=
  match t with
  | TList t' => TList (replaceType t')
  | TNonNull t' => TNonNull (replaceType t')
  | TNamed r => TNamed (replaceNamedType r)
  end.

Definition extendArg (a : ArgumentConfig) : ArgumentConfig :=
  {| arg_type := replaceType (arg_type a);
     arg_description := arg_description a;
     arg_defaultValue := arg_defaultValue a;
     arg_deprecationReason := arg_deprecationReason a;
     arg_astNode := arg_astNode a |}.

Definition extendField (f : FieldConfig) : FieldConfig :=
  {| fc_type := replaceType (fc_type f);
     fc_description := fc_description f;
     fc_args := Obj.mapValue (fc_args f) extendArg;
     fc_deprecationReason := fc_deprecationReason f;
     fc_astNode := fc_astNode f |}.

Definition replaceDirective (d : GraphQLDirective) : GraphQLDirective :=
  {| dir_name := dir_name d;
     dir_description := dir_description d;
     dir_locations := dir_locations d;
     dir_isRepeatable := dir_isRepeatable d;
     dir_args := Obj.mapValue (dir_args d) extendArg;
     dir_astNode := dir_astNode d |}.

(** the root operation types set by [getOperationTypes]; [None] is an
    absent key of [opTypes] *)
Record OpTypes := {
  op_query : option Ref;
  op_mutation : option Ref;
  op_subscription : option Ref
}.

Definition emptyOpTypes : OpTypes := {| op_query := None; op_mutation := None; op_subscription := None |}.

(** [opTypes[operation] = r] *)
Definition setOpType (o : OpTypes) (op : OperationTypeNode) (r : Ref) : OpTypes :=
  match op with
  | QUERY => {| op_query := Some r; op_mutation := op_mutation o; op_subscription := op_subscription o |}
  | MUTATION => {| op_query := op_query o; op_mutation := Some r; op_subscription := op_subscription o |}
  | SUBSCRIPTION => {| op_query := op_query o; op_mutation := op_mutation o; op_subscription := Some r |}
  end.

Section Resolution.
Variable typeMap : Registry.

(** [stdTypeMap[name] ?? typeMap[name]], throwing when both are undefined *)
Definition getNamedType (name : string) : Result Ref :=
  if isStdName name then Ok (StdRef name)
  else if existsb (String.eqb name) typeMap then Ok (RegRef name)
  else Err (UnknownType name).

Fixpoint getWrappedType (node : TypeNode) : Result GraphQLType :=
  match node with
  | ListTypeNode t => t' <- getWrappedType t ;; Ok (TList t')
  | NonNullTypeNode t => t' <- getWrappedType t ;; Ok (TNonNull t')
  | NamedTypeNode n => r <- getNamedType n ;; Ok (TNamed r)
  end.

Fixpoint buildArgumentMap_loop (acc : Obj.t ArgumentConfig)
    (args : list InputValueDefinitionNode) : Result (Obj.t ArgumentConfig) :=
  match args with
  | [] => Ok acc
  | arg :: rest =>
      type <- getWrappedType (iv_type arg) ;;
      buildArgumentMap_loop
        (Obj.set (iv_name arg)
           {| arg_type := type;
              arg_description := iv_description arg;
              arg_defaultValue := valueFromAST (iv_defaultValue arg) type;
              arg_deprecationReason := getDeprecationReason_iv arg;
              arg_astNode := Some arg |} acc) rest
  end.

Definition buildArgumentMap (args : option (list InputValueDefinitionNode)) :=
  buildArgumentMap_loop [] (coalesce args []).

Fixpoint buildFieldMap_fields (acc : Obj.t FieldConfig)
    (fields : list FieldDefinitionNode) : Result (Obj.t FieldConfig) :=
  match fields with
  | [] => Ok acc
  | field :: rest =>
      type <- getWrappedType (fd_type field) ;;
      args <- buildArgumentMap (fd_arguments field) ;;
      buildFieldMap_fields
        (Obj.set (fd_name field)
           {| fc_type := type;
              fc_description := fd_description field;
              fc_args := args;
              fc_deprecationReason := getDeprecationReason_fd field;
              fc_astNode := Some field |} acc) rest
  end.

Fixpoint buildFieldMap_loop (acc : Obj.t FieldConfig)
    (nodes : list TypeDefinitionNode) : Result (Obj.t FieldConfig) :=
  match nodes with
  | [] => Ok acc
  | node :: rest =>
      acc' <- buildFieldMap_fields acc (coalesce (nodeFields node) []) ;;
      buildFieldMap_loop acc' rest
  end.

Definition buildFieldMap (nodes : list TypeDefinitionNode) := buildFieldMap_loop [] nodes.

Fixpoint buildInputFieldMap_loop (acc : Obj.t ArgumentConfig)
    (nodes : list TypeDefinitionNode) : Result (Obj.t ArgumentConfig) :=
  match nodes with
  | [] => Ok acc
  | node :: rest =>
      (* node.variants[0].fields ?? [] *)
      match nodeVariants node with
      | Some (v0 :: _) =>
          acc' <- buildArgumentMap_loop acc (coalesce (vd_fields v0) []) ;;
          buildInputFieldMap_loop acc' rest
      | _ => Err (TypeError "Cannot read properties of undefined")
      end
  end.

Definition buildInputFieldMap (nodes : list TypeDefinitionNode) :=
  buildInputFieldMap_loop [] nodes.

(** [nodes.flatMap(node => node.interfaces?.map(getNamedType) ?? [])] *)
Fixpoint buildInterfaces (nodes : list TypeDefinitionNode) : Result (list Ref) :=
  match nodes with
  | [] => Ok []
  | node :: rest =>
      xs <- mapM getNamedType (coalesce (nodeInterfaces node) []) ;;
      ys <- buildInterfaces rest ;; Ok (xs ++ ys)
  end.

Fixpoint buildUnionTypes (nodes : list TypeDefinitionNode) : Result (list Ref) :=
  match nodes with
  | [] => Ok []
  | node :: rest =>
      xs <- mapM getNamedType (coalesce (nodeTypes node) []) ;;
      ys <- buildUnionTypes rest ;; Ok (xs ++ ys)
  end.

Definition buildDirective (node : DirectiveDefinitionNode) : Result GraphQLDirective :=
  args <- buildArgumentMap (dirn_arguments node) ;;
  Ok {| dir_name := dirn_name node;
        dir_description := dirn_description node;
        dir_locations := dirn_locations node;
        dir_isRepeatable := dirn_repeatable node;
        dir_args := args;
        dir_astNode := Some node |}.

Fixpoint getOperationTypes_ops (acc : OpTypes)
    (ops : list OperationTypeDefinitionNode) : Result OpTypes :=
  match ops with
  | [] => Ok acc
  | ot :: rest =>
      r <- getNamedType (otd_type ot) ;;
      getOperationTypes_ops (setOpType acc (otd_operation ot) r) rest
  end.

Fixpoint getOperationTypes_loop (acc : OpTypes)
    (nodes : list SchemaDefinitionNode) : Result OpTypes :=
  match nodes with
  | [] => Ok acc
  | node :: rest =>
      acc' <- getOperationTypes_ops acc (coalesce (schd_operationTypes node) []) ;;
      getOperationTypes_loop acc' rest
  end.

Definition getOperationTypes (nodes : list SchemaDefinitionNode) :=
  getOperationTypes_loop emptyOpTypes nodes.
End Resolution.

(** [buildEnumValueMap] reads no type and cannot fail *)
Fixpoint buildEnumValueMap_values (acc : Obj.t EnumValueConfig)
    (values : list VariantDefinitionNode) : Obj.t EnumValueConfig :=
  match values with
  | [] => acc
  | value :: rest =>
      buildEnumValueMap_values
        (Obj.set (vd_name value)
           {| ev_description := vd_description value;
              ev_deprecationReason := getDeprecationReason_vd value;
              ev_astNode := Some value |} acc) rest
  end.

Definition buildEnumValueMap (nodes : list TypeDefinitionNode) : Obj.t EnumValueConfig :=
  fold_left (fun acc node => buildEnumValueMap_values acc (coalesce (nodeVariants node) []))
    nodes [].

(** ** Rebuilding existing types and building new ones *)

(** A type whose deferred bodies still wait for the registry: seeding
    allocates every entry of [typeMap] first, and each body then closes over
    the complete registry. *)
Definition OpenType := Registry -> NamedType.

Section Extend.
(** [typeExtensionsMap]: target name -> extension fragments *)
Variable typeExtensionsMap : Obj.t (list TypeDefinitionNode).

(** [typeExtensionsMap[name] ?? []] *)
Definition extensionsOf (name : string) : list TypeDefinitionNode :=
  coalesce (Obj.get name typeExtensionsMap) [].

Definition extendScalarType (name : string) (description : option string)
    (specifiedByURL : option string) (astNode : option ScalarTypeDefinitionNode)
    : Result OpenType :=
  let url := fold_left (fun u ext => orElse (getSpecifiedByURL ext) u)
               (extensionsOf name) specifiedByURL in
  Ok (fun _ => ScalarType name description url astNode).

(** [type.toConfig()] reads the interfaces and fields of the original type *)
Definition extendObjectType (name : string) (description : option string)
    (interfaces : Thunk (list Ref)) (fields : Thunk (Obj.t FieldConfig))
    (astNode : option ObjectTypeDefinitionNode) : Result OpenType :=
  ifs <- force interfaces ;;
  fs <- force fields ;;
  let extensions := extensionsOf name in
  Ok (fun reg =>
        ObjectType name description
          (fun _ => extIfs <- buildInterfaces reg extensions ;;
                    Ok (map replaceNamedType ifs ++ extIfs))
          (fun _ => extFs <- buildFieldMap reg extensions ;;
                    Ok (Obj.assign (Obj.mapValue fs extendField) extFs))
          astNode).

Definition extendInterfaceType (name : string) (description : option string)
    (interfaces : Thunk (list Ref)) (fields : Thunk (Obj.t FieldConfig))
    (astNode : option ObjectTypeDefinitionNode) : Result OpenType :=
  ifs <- force interfaces ;;
  fs <- force fields ;;
  let extensions := extensionsOf name in
  Ok (fun reg =>
        InterfaceType name description
          (fun _ => extIfs <- buildInterfaces reg extensions ;;
                    Ok (map replaceNamedType ifs ++ extIfs))
          (fun _ => extFs <- buildFieldMap reg extensions ;;
                    Ok (Obj.assign (Obj.mapValue fs extendField) extFs))
          astNode).

Definition extendUnionType (name : string) (description : option string)
    (types : Thunk (list Ref)) (astNode : option UnionTypeDefinitionNode)
    : Result OpenType :=
  ts <- force types ;;
  let extensions := extensionsOf name in
  Ok (fun reg =>
        UnionType name description
          (fun _ => extTs <- buildUnionTypes reg extensions ;;
                    Ok (map replaceNamedType ts ++ extTs))
          astNode).

Definition extendInputObjectType (name : string) (description : option string)
    (fields : Thunk (Obj.t ArgumentConfig)) (astNode : option DataTypeDefinitionNode)
    : Result OpenType :=
  fs <- force fields ;;
  let extensions := extensionsOf name in
  Ok (fun reg =>
        DataType name description
          (DataFields (fun _ => extFs <- buildInputFieldMap reg extensions ;;
                                Ok (Obj.assign (Obj.mapValue fs extendArg) extFs)))
          astNode).

Definition extendEnumType (name : string) (description : option string)
    (values : Obj.t EnumValueConfig) (astNode : option DataTypeDefinitionNode)
    : Result OpenType :=
  let extensions := extensionsOf name in
  let vs := Obj.assign values (buildEnumValueMap extensions) in
  Ok (fun _ => DataType name description (DataValues vs) astNode).

Definition extendNamedType (type : NamedType) : Result OpenType :=
  if isBuiltinType type then Ok (fun _ => type)  (* Builtin types are not extended. *)
  else
    match type with
    | ScalarType n d u a => extendScalarType n d u a
    | ObjectType n d i f a => extendObjectType n d i f a
    | InterfaceType n d i f a => extendInterfaceType n d i f a
    | UnionType n d t a => extendUnionType n d t a
    | DataType n d (DataValues vs) a => extendEnumType n d vs a
    | DataType n d (DataFields fs) a => extendInputObjectType n d fs a
    | BuiltinType _ => Err (Invariant "Unexpected type")
    end.

Definition buildType (astNode : TypeDefinitionNode) : Result OpenType :=
  let name := typeDefName astNode in
  let extensionASTNodes := extensionsOf name in
  match astNode with
  | ObjectTypeDefinition n =>
      let allNodes := astNode :: extensionASTNodes in
      Ok (fun reg => ObjectType name (od_description n)
                       (fun _ => buildInterfaces reg allNodes)
                       (fun _ => buildFieldMap reg allNodes)
                       (Some n))
  | InterfaceTypeDefinition n =>
      let allNodes := astNode :: extensionASTNodes in
      Ok (fun reg => InterfaceType name (od_description n)
                       (fun _ => buildInterfaces reg allNodes)
                       (fun _ => buildFieldMap reg allNodes)
                       (Some n))
  | UnionTypeDefinition n =>
      let allNodes := astNode :: extensionASTNodes in
      Ok (fun reg => UnionType name (ud_description n)
                       (fun _ => buildUnionTypes reg allNodes)
                       (Some n))
  | ScalarTypeDefinition n =>
      Ok (fun _ => ScalarType name (sd_description n) (getSpecifiedByURL astNode) (Some n))
  | DataTypeDefinition n =>
      (* const [variant, ...ext] = astNode.variants;
         if (ext.length === 0 && variant.fields.length > 0) *)
      let record : Result OpenType :=
        Ok (fun reg => DataType name (dd_description n)
                         (DataFields (fun _ => buildInputFieldMap reg [astNode]))
                         (Some n)) in
      let sum : Result OpenType :=
        Ok (fun _ => DataType name (dd_description n)
                       (DataValues (buildEnumValueMap [astNode])) (Some n)) in
      match dd_variants n with
      | [] => Err (TypeError "Cannot read properties of undefined (reading 'fields')")
      | [variant] =>
          match vd_fields variant with
          | None => Err (TypeError "Cannot read properties of undefined (reading 'length')")
          | Some fs => if Nat.ltb 0 (length fs) then record else sum
          end
      | _ :: _ :: _ => sum
      end
  end.

(** [typeMap[existingType.name] = extendNamedType(existingType)] *)
Fixpoint seedExisting (typeMap : Obj.t OpenType) (types : list NamedType)
    : Result (Obj.t OpenType) :=
  match types with
  | [] => Ok typeMap
  | existingType :: rest =>
      t <- extendNamedType existingType ;;
      seedExisting (Obj.set (typeName existingType) t typeMap) rest
  end.

(** [stdTypeMap[name] ?? buildType(typeNode)] *)
Definition newTypeEntry (typeNode : TypeDefinitionNode) : Result OpenType :=
  match stdTypeMap (typeDefName typeNode) with
  | Some std => Ok (fun _ => std)
  | None => buildType typeNode
  end.

(** [typeMap[name] = stdTypeMap[name] ?? buildType(typeNode)] *)
Fixpoint seedNew (typeMap : Obj.t OpenType) (typeDefs : list TypeDefinitionNode)
    : Result (Obj.t OpenType) :=
  match typeDefs with
  | [] => Ok typeMap
  | typeNode :: rest =>
      let name := typeDefName typeNode in
      t <- newTypeEntry typeNode ;;
      seedNew (Obj.set name t typeMap) rest
  end.
End Extend.

(** ** [extendSchemaImpl] *)

(** what the classification loop collects *)
Record Collected := {
  typeDefs : list TypeDefinitionNode;
  typeExtensionsMap : Obj.t (list TypeDefinitionNode);
  directiveDefs : list DirectiveDefinitionNode;
  schemaDef : option SchemaDefinitionNode
}.

Definition collectDefinition (c : Collected) (def : DefinitionNode) : Collected :=
  match def with
  | SchemaDefinition n =>
      {| typeDefs := typeDefs c; typeExtensionsMap := typeExtensionsMap c;
         directiveDefs := directiveDefs c; schemaDef := Some n |}
  | TypeDefinition n =>
      {| typeDefs := typeDefs c ++ [n]; typeExtensionsMap := typeExtensionsMap c;
         directiveDefs := directiveDefs c; schemaDef := schemaDef c |}
  | DirectiveDefinition n =>
      {| typeDefs := typeDefs c; typeExtensionsMap := typeExtensionsMap c;
         directiveDefs := directiveDefs c ++ [n]; schemaDef := schemaDef c |}
  | _ => c
  end.

(** [for (const def of documentAST.definitions) { ... }] *)
Definition collect (doc : DocumentNode) : Collected :=
  fold_left collectDefinition (definitions doc)
    {| typeDefs := []; typeExtensionsMap := []; directiveDefs := []; schemaDef := None |}.

Definition isNone {A} (o : option A) : bool :=
  match o with None => true | Some _ => false end.

(** [{ query: q0, ...opTypes }]: a key of [opTypes] overrides *)
Definition overrideRoot (declared : option Ref) (carried : option Ref) : option Ref :=
  match declared with Some r => Some r | None => carried end.

(** the configuration object literal [extendSchemaImpl] returns *)
Definition assembleConfig (config : SchemaConfig) (schemaDef : option SchemaDefinitionNode)
    (typeMap : Obj.t NamedType) (operationTypes : OpTypes)
    (newDirectives : list GraphQLDirective) (options : Options) : SchemaConfig :=
  {| sc_description := match schemaDef with Some sd => schd_description sd | None => None end;
     sc_query := overrideRoot (op_query operationTypes)
                   (option_map replaceNamedType (sc_query config));
     sc_mutation := overrideRoot (op_mutation operationTypes)
                      (option_map replaceNamedType (sc_mutation config));
     sc_subscription := overrideRoot (op_subscription operationTypes)
                          (option_map replaceNamedType (sc_subscription config));
     sc_types := Obj.values typeMap;
     sc_directives := map replaceDirective (sc_directives config) ++ newDirectives;
     sc_extensions := [];
     sc_astNode := orElse schemaDef (sc_astNode config);
     sc_assumeValid := coalesce (opt_assumeValid options) false |}.

(** the no-op test of [extendSchemaImpl] *)
Definition isNoop (c : Collected) : bool :=
  Nat.eqb (length (Obj.keys (typeExtensionsMap c))) 0 && Nat.eqb (length (typeDefs c)) 0
  && Nat.eqb (length (directiveDefs c)) 0 && isNone (schemaDef c).

Definition extendSchemaImpl (h : Heap) (schemaConfig : Loc) (documentAST : DocumentNode)
    (options : Options) : Result (Heap * Loc) :=
  let c := collect documentAST in
  if isNoop c then Ok (h, schemaConfig)
  else
    config <- deref h schemaConfig ;;
    seeded <- seedExisting (typeExtensionsMap c) [] (sc_types config) ;;
    seeded <- seedNew (typeExtensionsMap c) seeded (typeDefs c) ;;
    let registry := Obj.keys seeded in
    let typeMap := Obj.mapValue seeded (fun t => t registry) in
    operationTypes <-
      match schemaDef c with
      | Some sd => getOperationTypes registry [sd]
      | None => Ok emptyOpTypes
      end ;;
    newDirectives <- mapM (buildDirective registry) (directiveDefs c) ;;
    Ok (h ++ [assembleConfig config (schemaDef c) typeMap operationTypes newDirectives options],
        length h).

(** ** [extendSchema], the exported entry point *)

(** A [GraphQLSchema] object, seen through [toConfig()]: each call of
    [toConfig()] allocates a fresh configuration object with its contents.
    [new GraphQLSchema(config)] is an external constructor; it is modelled by
    allocating a schema object that holds the configuration. *)
Record GraphQLSchema := { schemaConfigOf : SchemaConfig }.

(** the objects [extendSchema] can see: schemas and configurations, each with
    identity (a location in its heap) *)
Record World := {
  schemas : list GraphQLSchema;
  configs : Heap
}.

(** [options?.assumeValid !== true && options?.assumeValidSDL !== true] is
    [negb (skipsValidation options)] *)
Definition skipsValidation (options : Options) : bool :=
  match opt_assumeValid options, opt_assumeValidSDL options with
  | Some true, _ => true
  | _, Some true => true
  | _, _ => false
  end.

Section ExtendSchema.
(** the external SDL validator [assertValidSDLExtension(documentAST, schema)],
    which throws on an invalid document *)
Variable assertValidSDLExtension : DocumentNode -> GraphQLSchema -> Result unit.

(** [assertSchema(schema)] rejects a value that is not a schema object (here
    a location with no schema); the [devAssert] on [documentAST.kind] holds
    by typing. *)
Definition extendSchema (w : World) (schema : Loc) (documentAST : DocumentNode)
    (options : Options) : Result (World * Loc) :=
  s <- match nth_error (schemas w) schema with
       | Some s => Ok s
       | None => Err (Invariant "Expected a GraphQL schema.")
       end ;;
  _ <- (if skipsValidation options then Ok tt
        else assertValidSDLExtension documentAST s) ;;
  (* const schemaConfig = schema.toConfig(); *)
  let h := configs w ++ [schemaConfigOf s] in
  let schemaConfig := length (configs w) in
  r <- extendSchemaImpl h schemaConfig documentAST options ;;
  let '(h', extendedConfig) := r in
  (* schemaConfig === extendedConfig ? schema : new GraphQLSchema(extendedConfig) *)
  if Nat.eqb schemaConfig extendedConfig
  then Ok ({| schemas := schemas w; configs := h' |}, schema)
  else
    c <- deref h' extendedConfig ;;
    Ok ({| schemas := schemas w ++ [{| schemaConfigOf := c |}]; configs := h' |},
        length (schemas w)).
End ExtendSchema.

(** ** Reading a result *)

(** the type named [name] in a type list (the first one) *)
Definition findType (name : string) (types : list NamedType) : option NamedType :=
  find (fun t => String.eqb (typeName t) name) types.

(** [getFields()] of an object or interface type *)
Definition readFields (t : NamedType) : option (Result (Obj.t FieldConfig)) :=
  match t with
  | ObjectType _ _ _ f _ | InterfaceType _ _ _ f _ => Some (force f)
  | _ => None
  end.

(** the configuration a successful call hands back *)
Definition resultConfig (r : Result (Heap * Loc)) : option SchemaConfig :=
  match r with
  | Ok (h, l) => nth_error h l
  | Err _ => None
  end.

(** ** Sample inputs *)

Definition namedField (name : string) (type : string) : FieldDefinitionNode :=
  {| fd_name := name; fd_description := None; fd_arguments := Some [];
     fd_type := NamedTypeNode type; fd_deprecated := None |}.

Definition objectNode (name : string) (fields : list FieldDefinitionNode) : ObjectTypeDefinitionNode :=
  {| od_name := name; od_description := None; od_interfaces := Some []; od_fields := Some fields |}.

Definition stringField : FieldConfig :=
  {| fc_type := TNamed (StdRef "String"); fc_description := None; fc_args := [];
     fc_deprecationReason := None; fc_astNode := None |}.

(** a snapshot with [String], [Query { hello: String }] and [T { a: String }] *)
Definition sampleConfig : SchemaConfig :=
  {| sc_description := Some "sample";
     sc_query := Some (RegRef "Query");
     sc_mutation := None;
     sc_subscription := None;
     sc_types := [BuiltinType "String";
                  ObjectType "Query" None (fun _ => Ok []) (fun _ => Ok [("hello", stringField)]) None;
                  ObjectType "T" None (fun _ => Ok []) (fun _ => Ok [("a", stringField)]) None];
     sc_directives := [];
     sc_extensions := [];
     sc_astNode := None;
     sc_assumeValid := false |}.

Definition sampleHeap : Heap := [sampleConfig].

Definition noOptions : Options := {| opt_assumeValid := None; opt_assumeValidSDL := None |}.

(** the field names of the type [name] in the configuration a call returns *)
Definition resultFieldNames (r : Result (Heap * Loc)) (name : string) : option (Result (list string)) :=
  match resultConfig r with
  | Some c =>
      match findType name (sc_types c) with
      | Some t =>
          match readFields t with
          | Some (Ok fs) => Some (Ok (Obj.keys fs))
          | Some (Err e) => Some (Err e)
          | None => None
          end
      | None => None
      end
  | None => None
  end.

(** [type A { x: String }] *)
Definition defA : DefinitionNode :=
  TypeDefinition (ObjectTypeDefinition (objectNode "A" [namedField "x" "String"])).

(** [extend type T { f: String }] then [extend type T { f: Int }] *)
Definition docTwoFragments : DocumentNode :=
  {| definitions :=
       [defA;
        TypeExtension (ObjectTypeDefinition (objectNode "T" [namedField "f" "String"]));
        TypeExtension (ObjectTypeDefinition (objectNode "T" [namedField "f" "Int"]))] |}.

(** [type A { f: Unknown }] *)
Definition docUnknownField : DocumentNode :=
  {| definitions :=
       [TypeDefinition (ObjectTypeDefinition (objectNode "A" [namedField "f" "Unknown"]))] |}.

(** [type A { x: String }] alone *)
Definition docNewType : DocumentNode := {| definitions := [defA] |}.


(** [data Hello = WORLD] whose variant node has no [fields] property *)
Definition docDataNoFields : DocumentNode :=
  {| definitions :=
       [TypeDefinition (DataTypeDefinition
          {| dd_name := "Hello"; dd_description := None;
             dd_variants := [{| vd_name := "WORLD"; vd_description := None;
                                vd_fields := None; vd_deprecated := None |}] |})] |}.

(** the configuration [extendSchemaImpl] allocates for [docNewType] *)
Definition sampleExtended : SchemaConfig :=
  coalesce (resultConfig (extendSchemaImpl sampleHeap 0 docNewType noOptions)) sampleConfig.

(** [type T { b: String }] over the sample, where [T] exists *)
Definition defT' : TypeDefinitionNode := ObjectTypeDefinition (objectNode "T" [namedField "b" "String"]).
Definition docRedefineT : DocumentNode := {| definitions := [TypeDefinition defT'] |}.
Definition sampleRedefined : SchemaConfig :=
  coalesce (resultConfig (extendSchemaImpl sampleHeap 0 docRedefineT noOptions)) sampleConfig.

(** [schema { mutation: T }] *)
Definition docSchemaMutation : DocumentNode :=
  {| definitions :=
       [SchemaDefinition {| schd_description := Some "with mutation";
                            schd_operationTypes := Some [{| otd_operation := MUTATION; otd_type := "T" |}] |}] |}.
Definition sampleWithSchema : SchemaConfig :=
  coalesce (resultConfig (extendSchemaImpl sampleHeap 0 docSchemaMutation noOptions)) sampleConfig.


(** [schema { query: Missing }] *)
Definition docMissingRoot : DocumentNode :=
  {| definitions :=
       [SchemaDefinition {| schd_description := None;
                            schd_operationTypes := Some [{| otd_operation := QUERY; otd_type := "Missing" |}] |}] |}.

(** the value of a successful result, or a default *)
Definition okOr {A} (r : Result A) (d : A) : A :=
  match r with Ok a => a | Err _ => d end.

(** the registry of the sample snapshot *)
Definition sampleReg : Registry := ["String"; "Query"; "T"].

Definition argNode (name : string) (type : string) : InputValueDefinitionNode :=
  {| iv_name := name; iv_description := None; iv_type := NamedTypeNode type;
     iv_defaultValue := None; iv_deprecated := None |}.

Definition variantNode (name : string) (fields : option (list InputValueDefinitionNode))
    : VariantDefinitionNode :=
  {| vd_name := name; vd_description := None; vd_fields := fields; vd_deprecated := None |}.

(** [(x: String, y: T, x: T)] *)
Definition sampleArgs : option (list InputValueDefinitionNode) :=
  Some [argNode "x" "String"; argNode "y" "T"; argNode "x" "T"].
Definition sampleArgMap : Obj.t ArgumentConfig := okOr (buildArgumentMap sampleReg sampleArgs) [].

(** [type A { x: String }] and [extend type A { x: T }] *)
Definition sampleFieldNodes : list TypeDefinitionNode :=
  [ObjectTypeDefinition (objectNode "A" [namedField "x" "String"]);
   ObjectTypeDefinition (objectNode "A" [namedField "x" "T"])].
Definition sampleFieldMap : Obj.t FieldConfig := okOr (buildFieldMap sampleReg sampleFieldNodes) [].

(** [data D = V1 { p: String } | V2 { q: T }] *)
Definition dataTwoVariants : TypeDefinitionNode :=
  DataTypeDefinition {| dd_name := "D"; dd_description := None;
                        dd_variants := [variantNode "V1" (Some [argNode "p" "String"]);
                                        variantNode "V2" (Some [argNode "q" "T"])] |}.

(** [data Color = RED | GREEN | RED] *)
Definition dataColors : DataTypeDefinitionNode :=
  {| dd_name := "Color"; dd_description := Some "colors";
     dd_variants := [variantNode "RED" (Some []); variantNode "GREEN" None;
                     variantNode "RED" (Some [])] |}.

(** [data E] (no variant) and [data R = R { p: String }] *)
Definition dataNoVariants : TypeDefinitionNode :=
  DataTypeDefinition {| dd_name := "E"; dd_description := None; dd_variants := [] |}.
Definition dataRecord : DataTypeDefinitionNode :=
  {| dd_name := "R"; dd_description := None;
     dd_variants := [variantNode "R" (Some [argNode "p" "String"])] |}.

(** the type [T] of the sample snapshot *)
Definition sampleT : NamedType :=
  ObjectType "T" None (fun _ => Ok []) (fun _ => Ok [("a", stringField)]) None.

(** extension fragments keyed by target name *)
Definition sampleExtensions : Obj.t (list TypeDefinitionNode) :=
  [("T", [ObjectTypeDefinition (objectNode "T" [namedField "a" "T"; namedField "b" "String"])]);
   ("Date", [ScalarTypeDefinition {| sd_name := "Date"; sd_description := None; sd_specifiedBy := Some "u1" |};
             ScalarTypeDefinition {| sd_name := "Date"; sd_description := None; sd_specifiedBy := Some "u2" |};
             ScalarTypeDefinition {| sd_name := "Date"; sd_description := None; sd_specifiedBy := None |}]);
   ("Color", [DataTypeDefinition {| dd_name := "Color"; dd_description := None;
                                    dd_variants := [variantNode "BLUE" None; variantNode "RED" None] |}]);
   ("In", [DataTypeDefinition {| dd_name := "In"; dd_description := None;
                                 dd_variants := [variantNode "In" (Some [argNode "q" "T"])] |}])].

Definition sampleArgConfig : ArgumentConfig :=
  {| arg_type := TNamed (StdRef "String"); arg_description := None; arg_defaultValue := None;
     arg_deprecationReason := None; arg_astNode := None |}.

Definition sampleDate : NamedType := ScalarType "Date" None (Some "u0") None.
Definition sampleColor : NamedType :=
  DataType "Color" None (DataValues [("RED", {| ev_description := Some "red"; ev_deprecationReason := None;
                                               ev_astNode := None |})]) None.
Definition sampleIn : NamedType :=
  DataType "In" None (DataFields (fun _ => Ok [("p", sampleArgConfig)])) None.

Definition extendedT : OpenType := okOr (extendNamedType sampleExtensions sampleT) (fun _ => sampleT).
Definition extendedDate : OpenType := okOr (extendNamedType sampleExtensions sampleDate) (fun _ => sampleDate).
Definition extendedColor : OpenType := okOr (extendNamedType sampleExtensions sampleColor) (fun _ => sampleColor).
Definition extendedIn : OpenType := okOr (extendNamedType sampleExtensions sampleIn) (fun _ => sampleIn).
Definition builtT' : OpenType := okOr (buildType [] defT') (fun _ => sampleT).
Definition builtColors : OpenType := okOr (buildType [] (DataTypeDefinition dataColors)) (fun _ => sampleT).
Definition builtRecord : OpenType := okOr (buildType [] (DataTypeDefinition dataRecord)) (fun _ => sampleT).

(** [directive @tag(v: String) on FIELD_DEFINITION] *)
Definition docDirective : DocumentNode :=
  {| definitions :=
       [DirectiveDefinition {| dirn_name := "tag"; dirn_description := None;
                               dirn_locations := ["FIELD_DEFINITION"]; dirn_repeatable := false;
                               dirn_arguments := Some [argNode "v" "String"] |}] |}.
Definition sampleWithDirective : SchemaConfig :=
  coalesce (resultConfig (extendSchemaImpl sampleHeap 0 docDirective noOptions)) sampleConfig.

(** options that skip the SDL validation *)
Definition assumeValidOptions : Options := {| opt_assumeValid := Some true; opt_assumeValidSDL := None |}.

(** validators that accept, or reject, every document *)
Definition acceptAll (_ : DocumentNode) (_ : GraphQLSchema) : Result unit := Ok tt.
Definition rejectAll (_ : DocumentNode) (_ : GraphQLSchema) : Result unit :=
  Err (TypeError "Invalid SDL extension").

Definition sampleWorld : World := {| schemas := [{| schemaConfigOf := sampleConfig |}]; configs := [] |}.
Definition sampleWorldExtended : World * Loc :=
  okOr (extendSchema acceptAll sampleWorld 0 docNewType noOptions) (sampleWorld, 0).

(** the configuration returned for [type A { f: Unknown }] *)
Definition sampleUnknownField : SchemaConfig :=
  coalesce (resultConfig (extendSchemaImpl sampleHeap 0 docUnknownField noOptions)) sampleConfig.


(** ** Vocabulary of the properties *)

Definition isSchemaDefinition (d : DefinitionNode) : bool :=
  match d with SchemaDefinition _ => true | _ => false end.
Definition isTypeDefinition (d : DefinitionNode) : bool :=
  match d with TypeDefinition _ => true | _ => false end.
Definition isDirectiveDefinition (d : DefinitionNode) : bool :=
  match d with DirectiveDefinition _ => true | _ => false end.
Definition isTypeExtension (d : DefinitionNode) : bool :=
  match d with TypeExtension _ => true | _ => false end.

(** the definitions the classification loop keeps *)
Definition isCollected (d : DefinitionNode) : bool :=
  isSchemaDefinition d || isTypeDefinition d || isDirectiveDefinition d.

(** a root operation type of a configuration *)
Definition rootOf (op : OperationTypeNode) (c : SchemaConfig) : option Ref :=
  match op with
  | QUERY => sc_query c
  | MUTATION => sc_mutation c
  | SUBSCRIPTION => sc_subscription c
  end.

(** the type name a schema definition declares for [op] (its last declaration) *)
Definition declaredIn (op : OperationTypeNode) (ops : list OperationTypeDefinitionNode)
    : option string :=
  fold_left (fun acc ot => if OperationTypeNode_eqb op (otd_operation ot)
                           then Some (otd_type ot) else acc) ops None.

Definition declaredRoot (op : OperationTypeNode) (sd : SchemaDefinitionNode) : option string :=
  declaredIn op (coalesce (schd_operationTypes sd) []).

(** the last type definition of a list named [name] *)
Definition lastTypeDefNamed (name : string) (defs : list TypeDefinitionNode) : option TypeDefinitionNode :=
  find (fun td => String.eqb (typeDefName td) name) (rev defs).

(** the types named [name] in a list *)
Definition typesNamed (name : string) (types : list NamedType) : list NamedType :=
  filter (fun t => String.eqb (typeName t) name) types.

(** the name a type expression resolves *)
Fixpoint typeNodeName (t : TypeNode) : string :=
  match t with
  | NamedTypeNode n => n
  | ListTypeNode t' | NonNullTypeNode t' => typeNodeName t'
  end.

(** the type names read by the argument types of a directive definition *)
Definition directiveArgTypeNames (d : DirectiveDefinitionNode) : list string :=
  map (fun a => typeNodeName (iv_type a)) (coalesce (dirn_arguments d) []).

(** the root type names a schema definition declares *)
Definition declaredRootNames (sd : SchemaDefinitionNode) : list string :=
  map otd_type (coalesce (schd_operationTypes sd) []).

(** the last type of a list named [name] *)
Definition lastTypeNamed (name : string) (types : list NamedType) : option NamedType :=
  find (fun t => String.eqb (typeName t) name) (rev types).

(** the key [op] of [opTypes] *)
Definition opGet (op : OperationTypeNode) (o : OpTypes) : option Ref :=
  match op with
  | QUERY => op_query o
  | MUTATION => op_mutation o
  | SUBSCRIPTION => op_subscription o
  end.

(** the definitions of each kind in a list of definitions, in order *)
Definition typeDefsOf (defs : list DefinitionNode) : list TypeDefinitionNode :=
  flat_map (fun d => match d with TypeDefinition n => [n] | _ => [] end) defs.
Definition directiveDefsOf (defs : list DefinitionNode) : list DirectiveDefinitionNode :=
  flat_map (fun d => match d with DirectiveDefinition n => [n] | _ => [] end) defs.

(** the last element of a list with the name [k] *)
Definition lastNamed {A} (name : A -> string) (k : string) (xs : list A) : option A :=
  find (fun x => String.eqb (name x) k) (rev xs).

(** the last schema definition of a list of definitions *)
Definition lastSchemaDef (defs : list DefinitionNode) : option SchemaDefinitionNode :=
  fold_left (fun acc d => match d with SchemaDefinition n => Some n | _ => acc end) defs None.

(** whether [getNamedType] finds a name in [stdTypeMap] or in [typeMap] *)
Definition resolves (reg : Registry) (n : string) : bool :=
  isStdName n || existsb (String.eqb n) reg.

(** the first name of a list that does not resolve *)
Definition firstUnresolved (reg : Registry) (names : list string) : option string :=
  find (fun n => negb (resolves reg n)) names.

(** the reference [getNamedType] returns for a name that resolves *)
Definition refOf (n : string) : Ref :=
  if isStdName n then StdRef n else RegRef n.

(** a type expression with the shape of [t] around the named reference [r] *)
Fixpoint wrapNode (t : TypeNode) (r : Ref) : GraphQLType :=
  match t with
  | NamedTypeNode _ => TNamed r
  | ListTypeNode t' => TList (wrapNode t' r)
  | NonNullTypeNode t' => TNonNull (wrapNode t' r)
  end.

(** the entries [buildArgumentMap], [buildFieldMap] and [buildEnumValueMap]
    write for one node *)
Definition argumentConfigOf (arg : InputValueDefinitionNode) (type : GraphQLType) : ArgumentConfig :=
  {| arg_type := type;
     arg_description := iv_description arg;
     arg_defaultValue := valueFromAST (iv_defaultValue arg) type;
     arg_deprecationReason := getDeprecationReason_iv arg;
     arg_astNode := Some arg |}.

Definition fieldConfigOf (field : FieldDefinitionNode) (type : GraphQLType)
    (args : Obj.t ArgumentConfig) : FieldConfig :=
  {| fc_type := type;
     fc_description := fd_description field;
     fc_args := args;
     fc_deprecationReason := getDeprecationReason_fd field;
     fc_astNode := Some field |}.

Definition enumValueConfigOf (value : VariantDefinitionNode) : EnumValueConfig :=
  {| ev_description := vd_description value;
     ev_deprecationReason := getDeprecationReason_vd value;
     ev_astNode := Some value |}.

(** the field nodes of a list of nodes, in order *)
Definition nodeFieldList (nodes : list TypeDefinitionNode) : list FieldDefinitionNode :=
  flat_map (fun n => coalesce (nodeFields n) []) nodes.

(** the type names a field definition reads, in the order they are resolved:
    its type, then the types of its arguments *)
Definition fieldTypeNames (f : FieldDefinitionNode) : list string :=
  typeNodeName (fd_type f) :: map (fun a => typeNodeName (iv_type a)) (coalesce (fd_arguments f) []).

(** the fields of the first variant of a data node *)
Definition firstVariantFields (n : TypeDefinitionNode) : option (list InputValueDefinitionNode) :=
  match nodeVariants n with
  | Some (v0 :: _) => Some (coalesce (vd_fields v0) [])
  | _ => None
  end.

Definition interfaceNames (nodes : list TypeDefinitionNode) : list string :=
  flat_map (fun n => coalesce (nodeInterfaces n) []) nodes.
Definition memberNames (nodes : list TypeDefinitionNode) : list string :=
  flat_map (fun n => coalesce (nodeTypes n) []) nodes.
Definition variantList (nodes : list TypeDefinitionNode) : list VariantDefinitionNode :=
  flat_map (fun n => coalesce (nodeVariants n) []) nodes.

(** the kind of a named type *)
Inductive TypeKind := KBuiltin | KScalar | KObject | KInterface | KUnion | KRecord | KSum.

Definition kindOf (t : NamedType) : TypeKind :=
  match t with
  | BuiltinType _ => KBuiltin
  | ScalarType _ _ _ _ => KScalar
  | ObjectType _ _ _ _ _ => KObject
  | InterfaceType _ _ _ _ _ => KInterface
  | UnionType _ _ _ _ => KUnion
  | DataType _ _ (DataFields _) _ => KRecord
  | DataType _ _ (DataValues _) _ => KSum
  end.

Definition descriptionOf (t : NamedType) : option string :=
  match t with
  | BuiltinType _ => None
  | ScalarType _ d _ _ | ObjectType _ d _ _ _ | InterfaceType _ d _ _ _
  | UnionType _ d _ _ | DataType _ d _ _ => d
  end.

(** a data definition is a record when it has a single variant with a
    non-empty field list *)
Definition isRecordDefinition (n : DataTypeDefinitionNode) : bool :=
  match dd_variants n with
  | [v] => match vd_fields v with Some (_ :: _) => true | _ => false end
  | _ => false
  end.

Definition defKind (td : TypeDefinitionNode) : TypeKind :=
  match td with
  | ObjectTypeDefinition _ => KObject
  | InterfaceTypeDefinition _ => KInterface
  | UnionTypeDefinition _ => KUnion
  | ScalarTypeDefinition _ => KScalar
  | DataTypeDefinition n => if isRecordDefinition n then KRecord else KSum
  end.

Definition defDescription (td : TypeDefinitionNode) : option string :=
  match td with
  | ObjectTypeDefinition n | InterfaceTypeDefinition n => od_description n
  | UnionTypeDefinition n => ud_description n
  | ScalarTypeDefinition n => sd_description n
  | DataTypeDefinition n => dd_description n
  end.

(** a data definition [buildType] cannot read: no variant, or a single
    variant without a [fields] property *)
Definition malformedData (td : TypeDefinitionNode) : bool :=
  match td with
  | DataTypeDefinition n =>
      match dd_variants n with
      | [] => true
      | [v] => match vd_fields v with None => true | Some _ => false end
      | _ => false
      end
  | _ => false
  end.

(** the specifiedBy URL of the last extension node that has one *)
Definition lastSpecifiedBy (exts : list TypeDefinitionNode) : option string :=
  match find (fun e => match getSpecifiedByURL e with Some _ => true | None => false end) (rev exts) with
  | Some e => getSpecifiedByURL e
  | None => None
  end.

(** the enum values of a data type (none for a record) *)
Definition readValues (t : NamedType) : option (Obj.t EnumValueConfig) :=
  match t with
  | DataType _ _ (DataValues vs) _ => Some vs
  | _ => None
  end.

(** the input fields of a record data type *)
Definition readInputFields (t : NamedType) : option (Result (Obj.t ArgumentConfig)) :=
  match t with
  | DataType _ _ (DataFields f) _ => Some (force f)
  | _ => None
  end.

(** [getInterfaces()] of an object or interface type *)
Definition readInterfaces (t : NamedType) : option (Result (list Ref)) :=
  match t with
  | ObjectType _ _ i _ _ | InterfaceType _ _ i _ _ => Some (force i)
  | _ => None
  end.

(** [getTypes()] of a union type *)
Definition readMembers (t : NamedType) : option (Result (list Ref)) :=
  match t with
  | UnionType _ _ ts _ => Some (force ts)
  | _ => None
  end.

(** the type names the fields of a record definition read, in order *)
Definition recordFieldNames (td : TypeDefinitionNode) : list string :=
  match td with
  | DataTypeDefinition n =>
      if isRecordDefinition n
      then map (fun a => typeNodeName (iv_type a)) (coalesce (firstVariantFields td) [])
      else []
  | _ => []
  end.

(** the checks the call makes before it returns, none of which reads a type
    body: no type of the snapshot is a builtin of a name outside
    [stdTypeMap]; no non-builtin type definition of the document is a
    malformed data definition; every root type the schema definition
    declares and every argument type of a directive definition is a builtin
    name, a type of the snapshot or a type the document defines *)
Definition eagerChecks (config : SchemaConfig) (c : Collected) : bool :=
  let reg := map typeName (sc_types config) ++ map typeDefName (typeDefs c) in
  forallb (fun t => match t with BuiltinType n => isStdName n | _ => true end) (sc_types config) &&
  forallb (fun td => isStdName (typeDefName td) || negb (malformedData td)) (typeDefs c) &&
  forallb (resolves reg) (match schemaDef c with Some sd => declaredRootNames sd | None => [] end) &&
  forallb (resolves reg) (flat_map directiveArgTypeNames (directiveDefs c)).

(** every deferred body of a type reads without error, as in a type of a
    constructed schema *)
Definition bodiesRead (t : NamedType) : Prop :=
  match t with
  | ObjectType _ _ i f _ | InterfaceType _ _ i f _ =>
      (exists x, force i = Ok x) /\ (exists y, force f = Ok y)
  | UnionType _ _ ts _ => exists x, force ts = Ok x
  | DataType _ _ (DataFields f) _ => exists y, force f = Ok y
  | _ => True
  end.

(** * Properties *)

(** ** JS objects *)

Module ObjFacts.
Import Obj.

Lemma get_set {A} (x k : string) (v : A) (o : t A) :
  get x (set k v o) = if String.eqb x k then Some v else get x o.
Proof.
  induction o as [|[k' v'] o IH]; simpl.
  - reflexivity.
  - destruct (String.eqb k k') eqn:Ekk'.
    + apply String.eqb_eq in Ekk'; subst k'. simpl.
      destruct (String.eqb x k); reflexivity.
    + simpl. destruct (String.eqb x k') eqn:Exk'.
      * apply String.eqb_eq in Exk'; subst k'.
        destruct (String.eqb x k) eqn:Exk; [|reflexivity].
        apply String.eqb_eq in Exk; subst. rewrite String.eqb_refl in Ekk'. discriminate.
      * exact IH.
Qed.

Lemma in_keys_set {A} (x k : string) (v : A) (o : t A) :
  In x (keys (set k v o)) <-> x = k \/ In x (keys o).
Proof.
  induction o as [|[k' v'] o IH]; simpl.
  - split; intros [H|H]; auto.
  - destruct (String.eqb k k') eqn:Ekk'; simpl.
    + apply String.eqb_eq in Ekk'; subst k'. split; intros [H|H]; auto.
    + rewrite IH. split; intros [H|[H|H]]; auto.
Qed.

Lemma in_set {A} (k' k : string) (v' v : A) (o : t A) :
  In (k', v') (set k v o) -> (k' = k /\ v' = v) \/ In (k', v') o.
Proof.
  induction o as [|[k0 v0] o IH]; simpl.
  - intros [H|[]]. inversion H; subst. auto.
  - destruct (String.eqb k k0); simpl.
    + intros [H|H]; [inversion H; subst; auto | auto].
    + intros [H|H]; [auto | destruct (IH H) as [?|?]; auto].
Qed.

Lemma nodup_keys_set {A} (k : string) (v : A) (o : t A) :
  NoDup (keys o) -> NoDup (keys (set k v o)).
Proof.
  induction o as [|[k' v'] o IH]; simpl; intros Hnd.
  - constructor; [intros []|constructor].
  - inversion Hnd as [|? ? Hnin Hnd']; subst.
    destruct (String.eqb k k') eqn:Ekk'; simpl.
    + apply String.eqb_eq in Ekk'; subst k'. constructor; assumption.
    + constructor; [|apply IH; assumption].
      rewrite in_keys_set. intros [->|Hin]; [|contradiction].
      rewrite String.eqb_refl in Ekk'. discriminate.
Qed.

Lemma keys_mapValue {A B} (o : t A) (f : A -> B) : keys (mapValue o f) = keys o.
Proof.
  unfold keys, mapValue. rewrite map_map. reflexivity.
Qed.

Lemma get_none_not_in {A} (x : string) (o : t A) :
  get x o = None -> ~ In x (keys o).
Proof.
  induction o as [|[k v] o IH]; simpl; [tauto|].
  destruct (String.eqb x k) eqn:E; [discriminate|].
  intros Hg [->|Hin]; [rewrite String.eqb_refl in E; discriminate | exact (IH Hg Hin)].
Qed.

Lemma get_in {A} (x : string) (v : A) (o : t A) : get x o = Some v -> In (x, v) o.
Proof.
  induction o as [|[k v'] o IH]; simpl; [discriminate|].
  destruct (String.eqb x k) eqn:E.
  - apply String.eqb_eq in E; subst. intros H; inversion H; subst; auto.
  - auto.
Qed.
End ObjFacts.

(** ** Seeding the registry *)

Ltac split_binds :=
  repeat match goal with
         | H : context [bind ?m _] |- _ =>
             let E := fresh "E" in destruct m eqn:E; simpl in H; [|discriminate H]
         end.

Lemma extendNamedType_name X type t :
  extendNamedType X type = Ok t -> forall reg, typeName (t reg) = typeName type.
Proof.
  unfold extendNamedType.
  destruct (isBuiltinType type).
  - intros H; inversion H; subst; reflexivity.
  - destruct type as [n|n d u a|n d i f a|n d i f a|n d ts a|n d [fs|vs] a];
      unfold extendScalarType, extendObjectType, extendInterfaceType, extendUnionType,
        extendInputObjectType, extendEnumType;
      intros H; simpl in H; split_binds; try discriminate;
      inversion H; subst; reflexivity.
Qed.

Lemma buildType_name X td t :
  buildType X td = Ok t -> forall reg, typeName (t reg) = typeDefName td.
Proof.
  destruct td as [n|n|n|n|n]; simpl; intros H; try (inversion H; subst; reflexivity).
  destruct (dd_variants n) as [|v [|v2 rest]]; [discriminate| |inversion H; reflexivity].
  destruct (vd_fields v) as [fs|]; [|discriminate].
  destruct (Nat.ltb 0 (length fs)); inversion H; reflexivity.
Qed.

Section Seeding.
Variable X : Obj.t (list TypeDefinitionNode).

Lemma seedExisting_inv types : forall tm tm',
  NoDup (Obj.keys tm) ->
  (forall k t, In (k, t) tm -> forall reg, typeName (t reg) = k) ->
  seedExisting X tm types = Ok tm' ->
  NoDup (Obj.keys tm') /\ (forall k t, In (k, t) tm' -> forall reg, typeName (t reg) = k).
Proof.
  induction types as [|ty types IH]; simpl; intros tm tm' Hnd Hnm H.
  - inversion H; subst; auto.
  - destruct (extendNamedType X ty) as [t|e] eqn:E; simpl in H; [|discriminate].
    apply (IH _ _ (ObjFacts.nodup_keys_set (typeName ty) t _ Hnd)); [|exact H].
    intros k t' Hin reg. destruct (ObjFacts.in_set _ _ _ _ _ Hin) as [[-> ->]|Hin'].
    + exact (extendNamedType_name _ _ _ E reg).
    + exact (Hnm _ _ Hin' reg).
Qed.

Lemma seedNew_inv defs : forall tm tm',
  NoDup (Obj.keys tm) ->
  (forall k t, In (k, t) tm -> forall reg, typeName (t reg) = k) ->
  seedNew X tm defs = Ok tm' ->
  NoDup (Obj.keys tm') /\ (forall k t, In (k, t) tm' -> forall reg, typeName (t reg) = k).
Proof.
  induction defs as [|td defs IH]; simpl; intros tm tm' Hnd Hnm H.
  - inversion H; subst; auto.
  - set (name := typeDefName td) in *.
    destruct (newTypeEntry X td) as [t|e] eqn:E; simpl in H; [|discriminate].
    apply (IH _ _ (ObjFacts.nodup_keys_set name t _ Hnd)); [|exact H].
    intros k t' Hin reg. destruct (ObjFacts.in_set _ _ _ _ _ Hin) as [[-> ->]|Hin'].
    + unfold newTypeEntry, stdTypeMap in E. fold name in E. destruct (isStdName name).
      * inversion E; subst; reflexivity.
      * exact (buildType_name _ _ _ E reg).
    + exact (Hnm _ _ Hin' reg).
Qed.

Lemma seedExisting_keys types : forall tm tm',
  seedExisting X tm types = Ok tm' ->
  forall k, In k (Obj.keys tm') <-> In k (Obj.keys tm) \/ In k (map typeName types).
Proof.
  induction types as [|ty types IH]; simpl; intros tm tm' H k.
  - inversion H; subst; tauto.
  - destruct (extendNamedType X ty) as [t|e]; simpl in H; [|discriminate].
    rewrite (IH _ _ H k), ObjFacts.in_keys_set.
    split; intros Hk; intuition (subst; auto).
Qed.

Lemma seedNew_keys defs : forall tm tm',
  seedNew X tm defs = Ok tm' ->
  forall k, In k (Obj.keys tm') <-> In k (Obj.keys tm) \/ In k (map typeDefName defs).
Proof.
  induction defs as [|td defs IH]; simpl; intros tm tm' H k.
  - inversion H; subst; tauto.
  - destruct (newTypeEntry X td); simpl in H; [|discriminate].
    rewrite (IH _ _ H k), ObjFacts.in_keys_set.
    split; intros Hk; intuition (subst; auto).
Qed.
End Seeding.

(** the names of the closed types are the keys of the registry *)
Lemma names_of_typeMap (seeded : Obj.t OpenType) (reg : Registry) :
  (forall k t, In (k, t) seeded -> forall reg, typeName (t reg) = k) ->
  map typeName (Obj.values (Obj.mapValue seeded (fun t => t reg))) = Obj.keys seeded.
Proof.
  induction seeded as [|[k t] seeded IH]; simpl; intros Hnm; [reflexivity|].
  f_equal.
  - apply (Hnm k t); left; reflexivity.
  - apply IH. intros k' t' Hin. apply Hnm. right; exact Hin.
Qed.

(** ** Classification *)

Lemma collectDefinition_skip c d : isCollected d = false -> collectDefinition c d = c.
Proof. destruct d; simpl; try discriminate; reflexivity. Qed.

Lemma collect_filter defs : forall c,
  fold_left collectDefinition defs c = fold_left collectDefinition (filter isCollected defs) c.
Proof.
  induction defs as [|d defs IH]; simpl; intros c; [reflexivity|].
  destruct (isCollected d) eqn:E; simpl.
  - apply IH.
  - rewrite collectDefinition_skip by exact E. apply IH.
Qed.

Lemma collect_typeExtensionsMap defs : forall c,
  typeExtensionsMap (fold_left collectDefinition defs c) = typeExtensionsMap c.
Proof.
  induction defs as [|d defs IH]; simpl; intros c; [reflexivity|].
  rewrite IH. destruct d; reflexivity.
Qed.

Lemma collect_nothing defs : forall c,
  forallb (fun d => negb (isCollected d)) defs = true ->
  fold_left collectDefinition defs c = c.
Proof.
  induction defs as [|d defs IH]; simpl; intros c H; [reflexivity|].
  apply andb_prop in H as [Hd Hr].
  rewrite collectDefinition_skip by (destruct (isCollected d); [discriminate|reflexivity]).
  apply IH, Hr.
Qed.

(** ** Shape of a successful call *)

Lemma extendSchemaImpl_ok h l doc options h' l' :
  extendSchemaImpl h l doc options = Ok (h', l') ->
  (isNoop (collect doc) = true /\ h' = h /\ l' = l) \/
  (isNoop (collect doc) = false /\
   exists config s1 s2 ops dirs,
     nth_error h l = Some config /\
     seedExisting (typeExtensionsMap (collect doc)) [] (sc_types config) = Ok s1 /\
     seedNew (typeExtensionsMap (collect doc)) s1 (typeDefs (collect doc)) = Ok s2 /\
     match schemaDef (collect doc) with
     | Some sd => getOperationTypes (Obj.keys s2) [sd]
     | None => Ok emptyOpTypes
     end = Ok ops /\
     mapM (buildDirective (Obj.keys s2)) (directiveDefs (collect doc)) = Ok dirs /\
     h' = h ++ [assembleConfig config (schemaDef (collect doc))
                  (Obj.mapValue s2 (fun t => t (Obj.keys s2))) ops dirs options] /\
     l' = length h).
Proof.
  unfold extendSchemaImpl. destruct (isNoop (collect doc)) eqn:Hn.
  - intros H; inversion H; subst; left; auto.
  - intros H; right; split; [reflexivity|].
    unfold deref in H. destruct (nth_error h l) as [config|] eqn:E0; simpl in H; [|discriminate].
    split_binds. inversion H; subst.
    eexists _, _, _, _, _; repeat split; eassumption.
Qed.

Lemma nth_error_alloc (h : Heap) (c : SchemaConfig) : nth_error (h ++ [c]) (length h) = Some c.
Proof. rewrite nth_error_app2, Nat.sub_diag by lia. reflexivity. Qed.

Lemma nth_error_alloc_old (h : Heap) (c : SchemaConfig) l :
  l < length h -> nth_error (h ++ [c]) l = nth_error h l.
Proof. intros Hl. apply nth_error_app1, Hl. Qed.

(** the seeded registry: distinct keys, each naming its type *)
Lemma seeded_registry X types defs s1 s2 :
  seedExisting X [] types = Ok s1 ->
  seedNew X s1 defs = Ok s2 ->
  NoDup (Obj.keys s2) /\ (forall k t, In (k, t) s2 -> forall reg, typeName (t reg) = k).
Proof.
  intros H1 H2.
  destruct (seedExisting_inv X types [] s1 (NoDup_nil _)
              (fun k t (Hin : In (k, t) []) => match Hin with end) H1) as [Hnd Hnm].
  exact (seedNew_inv X defs s1 s2 Hnd Hnm H2).
Qed.

(** ** Lookups in the seeded registry *)

Lemma seedNew_app X a : forall tm b,
  seedNew X tm (a ++ b) = bind (seedNew X tm a) (fun s => seedNew X s b).
Proof.
  induction a as [|td a IH]; simpl; intros tm b; [reflexivity|].
  destruct (newTypeEntry X td); simpl; [apply IH|reflexivity].
Qed.

Lemma seedExisting_app X a : forall tm b,
  seedExisting X tm (a ++ b) = bind (seedExisting X tm a) (fun s => seedExisting X s b).
Proof.
  induction a as [|ty a IH]; simpl; intros tm b; [reflexivity|].
  destruct (extendNamedType X ty); simpl; [apply IH|reflexivity].
Qed.

Lemma find_rev_snoc {A} (p : A -> bool) (l : list A) (x : A) :
  find p (rev (l ++ [x])) = if p x then Some x else find p (rev l).
Proof. rewrite rev_app_distr. reflexivity. Qed.

(** the entry of [name] after the new definitions: the last definition named so *)
Lemma seedNew_get X defs : forall tm tm' name,
  seedNew X tm defs = Ok tm' ->
  match lastTypeDefNamed name defs with
  | Some td => exists t, newTypeEntry X td = Ok t /\ Obj.get name tm' = Some t
  | None => Obj.get name tm' = Obj.get name tm
  end.
Proof.
  induction defs as [|td defs IH] using rev_ind; intros tm tm' name H.
  - simpl in H. inversion H; subst. reflexivity.
  - rewrite seedNew_app in H. destruct (seedNew X tm defs) as [s|e] eqn:Es; simpl in H; [|discriminate].
    destruct (newTypeEntry X td) as [t|e] eqn:Et; simpl in H; [|discriminate].
    inversion H; subst tm'.
    unfold lastTypeDefNamed. rewrite find_rev_snoc.
    rewrite ObjFacts.get_set.
    destruct (String.eqb (typeDefName td) name) eqn:En.
    + apply String.eqb_eq in En. rewrite <- En, String.eqb_refl. eauto.
    + assert (Hne : String.eqb name (typeDefName td) = false)
        by (rewrite String.eqb_sym; exact En).
      rewrite Hne. exact (IH _ _ name Es).
Qed.

(** the entry of [name] after the existing types: the last type named so *)
Lemma seedExisting_get X types : forall tm tm' name,
  seedExisting X tm types = Ok tm' ->
  match lastTypeNamed name types with
  | Some ty => exists t, extendNamedType X ty = Ok t /\ Obj.get name tm' = Some t
  | None => Obj.get name tm' = Obj.get name tm
  end.
Proof.
  induction types as [|ty types IH] using rev_ind; intros tm tm' name H.
  - simpl in H. inversion H; subst. reflexivity.
  - rewrite seedExisting_app in H.
    destruct (seedExisting X tm types) as [s|e] eqn:Es; simpl in H; [|discriminate].
    destruct (extendNamedType X ty) as [t|e] eqn:Et; simpl in H; [|discriminate].
    inversion H; subst tm'.
    unfold lastTypeNamed. rewrite find_rev_snoc.
    rewrite ObjFacts.get_set.
    destruct (String.eqb (typeName ty) name) eqn:En.
    + apply String.eqb_eq in En. rewrite <- En, String.eqb_refl. eauto.
    + assert (Hne : String.eqb name (typeName ty) = false)
        by (rewrite String.eqb_sym; exact En).
      rewrite Hne. exact (IH _ _ name Es).
Qed.

(** the types named [name] in the closed registry *)
Lemma typesNamed_typeMap (seeded : Obj.t OpenType) (reg : Registry) name :
  NoDup (Obj.keys seeded) ->
  (forall k t, In (k, t) seeded -> forall reg, typeName (t reg) = k) ->
  typesNamed name (Obj.values (Obj.mapValue seeded (fun t => t reg)))
  = match Obj.get name seeded with Some t => [t reg] | None => [] end.
Proof.
  induction seeded as [|[k t] seeded IH]; simpl; intros Hnd Hnm; [reflexivity|].
  inversion Hnd as [|? ? Hnin Hnd']; subst.
  rewrite (Hnm k t (or_introl eq_refl) reg).
  assert (Hnm' : forall k' t', In (k', t') seeded -> forall reg, typeName (t' reg) = k')
    by (intros; eapply Hnm; right; eassumption).
  rewrite String.eqb_sym.
  destruct (String.eqb name k) eqn:E.
  - apply String.eqb_eq in E; subst k. f_equal.
    rewrite IH by assumption.
    destruct (Obj.get name seeded) as [t'|] eqn:Eg; [|reflexivity].
    exfalso. apply Hnin. apply ObjFacts.get_in in Eg.
    apply (in_map fst) in Eg. exact Eg.
  - apply IH; assumption.
Qed.

Lemma opGet_setOpType o op op' r :
  opGet op (setOpType o op' r) = if OperationTypeNode_eqb op op' then Some r else opGet op o.
Proof. destruct op, op'; reflexivity. Qed.

Lemma rootOf_assembleConfig op config sd typeMap ops dirs options :
  rootOf op (assembleConfig config sd typeMap ops dirs options)
  = overrideRoot (opGet op ops) (option_map replaceNamedType (rootOf op config)).
Proof. destruct op; reflexivity. Qed.

Lemma getOperationTypes_ops_app reg a : forall acc b,
  getOperationTypes_ops reg acc (a ++ b)
  = bind (getOperationTypes_ops reg acc a) (fun acc' => getOperationTypes_ops reg acc' b).
Proof.
  induction a as [|ot a IH]; simpl; intros acc b; [reflexivity|].
  destruct (getNamedType reg (otd_type ot)); simpl; [apply IH|reflexivity].
Qed.

(** the root [getOperationTypes] sets for [op]: its last declaration *)
Lemma getOperationTypes_ops_get reg op ops : forall acc o,
  getOperationTypes_ops reg acc ops = Ok o ->
  match declaredIn op ops with
  | Some n => exists r, getNamedType reg n = Ok r /\ opGet op o = Some r
  | None => opGet op o = opGet op acc
  end.
Proof.
  induction ops as [|ot ops IH] using rev_ind; intros acc o H.
  - simpl in H. inversion H; subst. reflexivity.
  - rewrite getOperationTypes_ops_app in H.
    destruct (getOperationTypes_ops reg acc ops) as [a|e] eqn:Ea; simpl in H; [|discriminate].
    destruct (getNamedType reg (otd_type ot)) as [r|e] eqn:Er; simpl in H; [|discriminate].
    inversion H; subst o.
    unfold declaredIn. rewrite fold_left_app. simpl.
    rewrite opGet_setOpType.
    destruct (OperationTypeNode_eqb op (otd_operation ot)); [eauto|].
    exact (IH _ _ Ea).
Qed.

(** * The claims *)

(** ** C1: extension fragments and last-write-wins (failing input) *)

(** C1: two extension fragments [extend type T { f: String }] and
    [extend type T { f: Int }] leave [T] without any field [f]: its fields
    are exactly the original [a].  The classification loop never fills
    [typeExtensionsMap], so neither fragment reaches [buildFieldMap]. *)
Lemma C1_two_fragments_field_absent :
  resultFieldNames (extendSchemaImpl sampleHeap 0 docTwoFragments noOptions) "T"
  = Some (Ok ["a"]).
Proof. vm_compute. reflexivity. Qed.

(** ** C2: no-op identity *)

(** C2: a document with no type definition, no extension fragment, no
    directive definition and no schema definition makes [extendSchemaImpl]
    return the very configuration it was given (same heap, same location). *)
Theorem C2_noop_returns_same_config h l doc options :
  existsb isTypeDefinition (definitions doc) = false ->
  existsb isTypeExtension (definitions doc) = false ->
  existsb isDirectiveDefinition (definitions doc) = false ->
  existsb isSchemaDefinition (definitions doc) = false ->
  extendSchemaImpl h l doc options = Ok (h, l).
Proof.
  intros Ht _ Hd Hs.
  unfold extendSchemaImpl, collect.
  rewrite collect_nothing; [reflexivity|].
  apply forallb_forall. intros d Hin.
  destruct d; simpl; try reflexivity; exfalso.
  - assert (existsb isSchemaDefinition (definitions doc) = true)
      by (apply existsb_exists; exists (SchemaDefinition n); auto). congruence.
  - assert (existsb isTypeDefinition (definitions doc) = true)
      by (apply existsb_exists; exists (TypeDefinition n); auto). congruence.
  - assert (existsb isDirectiveDefinition (definitions doc) = true)
      by (apply existsb_exists; exists (DirectiveDefinition n); auto). congruence.
Qed.

Lemma C2_noop_returns_same_config_witness :
  existsb isTypeDefinition [OtherDefinition] = false /\
  extendSchemaImpl sampleHeap 0 {| definitions := [OtherDefinition] |} noOptions = Ok (sampleHeap, 0).
Proof.
  split; [reflexivity|].
  apply (C2_noop_returns_same_config sampleHeap 0 {| definitions := [OtherDefinition] |} noOptions);
    reflexivity.
Defined.

(** ** C3: unknown types (counterexample) *)

(** C3: for [type A { f: Unknown }] the call does not fail: it returns a new
    configuration, and the UnknownType error is raised only when the fields
    of [A] are read. *)
Lemma C3_unknown_field_type_returns_snapshot :
  extendSchemaImpl sampleHeap 0 docUnknownField noOptions
    = Ok (sampleHeap ++ [match resultConfig (extendSchemaImpl sampleHeap 0 docUnknownField noOptions)
                        with Some c => c | None => sampleConfig end], 1) /\
  resultFieldNames (extendSchemaImpl sampleHeap 0 docUnknownField noOptions) "A"
    = Some (Err (UnknownType "Unknown")).
Proof. split; vm_compute; reflexivity. Qed.

(** ** C4: description (failing input) *)

(** C4: extending a snapshot described "sample" with [type A { x: String }]
    (no schema definition) yields a configuration without description. *)
Lemma C4_description_dropped :
  option_map sc_description (nth_error sampleHeap 0) = Some (Some "sample") /\
  option_map sc_description (resultConfig (extendSchemaImpl sampleHeap 0 docNewType noOptions))
    = Some None.
Proof. split; vm_compute; reflexivity. Qed.

(** ** C5: builtin names (counterexample) *)


(** ** C7: record/sum classification (failing input) *)

(** C7: [data Hello = WORLD] whose single variant node carries no [fields]
    property makes the call throw a TypeError instead of building a sum. *)
Lemma C7_single_variant_without_fields_throws :
  extendSchemaImpl sampleHeap 0 docDataNoFields noOptions
  = Err (TypeError "Cannot read properties of undefined (reading 'length')").
Proof. vm_compute. reflexivity. Qed.

(** ** C9: distinct type names *)

(** C9: when the snapshot's type names are distinct, the type names of the
    configuration a successful call returns are distinct. *)
Theorem C9_type_names_distinct h l doc options h' l' config c :
  nth_error h l = Some config ->
  NoDup (map typeName (sc_types config)) ->
  extendSchemaImpl h l doc options = Ok (h', l') ->
  nth_error h' l' = Some c ->
  NoDup (map typeName (sc_types c)).
Proof.
  intros Hc Hnd Hext Hc'.
  destruct (extendSchemaImpl_ok _ _ _ _ _ _ Hext)
    as [[_ [-> ->]] | [_ [config' [s1 [s2 [ops [dirs [Hc0 [H1 [H2 [_ [_ [-> ->]]]]]]]]]]]]].
  - rewrite Hc in Hc'. inversion Hc'; subst. exact Hnd.
  - rewrite nth_error_alloc in Hc'. inversion Hc'; subst c. simpl.
    destruct (seeded_registry _ _ _ _ _ H1 H2) as [Hk Hnm].
    rewrite names_of_typeMap by exact Hnm. exact Hk.
Qed.

Lemma C9_type_names_distinct_witness :
  NoDup (map typeName (sc_types sampleExtended)).
Proof.
  apply (C9_type_names_distinct sampleHeap 0 docNewType noOptions
           (sampleHeap ++ [sampleExtended]) 1 sampleConfig).
  - reflexivity.
  - simpl. repeat constructor; simpl; intuition discriminate.
  - vm_compute. reflexivity.
  - reflexivity.
Defined.

(** ** C10: unclassified definitions are dropped *)

(** C10: the classification loop keeps only schema, type and directive
    definitions: [typeExtensionsMap] stays empty, every lookup in it gives
    [[]], and the call gives the same outcome on the document with every
    other definition (every extension fragment among them) removed. *)
Theorem C10_unclassified_definitions_dropped doc :
  typeExtensionsMap (collect doc) = [] /\
  (forall name, extensionsOf (typeExtensionsMap (collect doc)) name = []) /\
  collect doc = collect {| definitions := filter isCollected (definitions doc) |} /\
  (forall h l options,
     extendSchemaImpl h l doc options
     = extendSchemaImpl h l {| definitions := filter isCollected (definitions doc) |} options).
Proof.
  assert (Hmap : typeExtensionsMap (collect doc) = []).
  { unfold collect. rewrite collect_typeExtensionsMap. reflexivity. }
  assert (Hc : collect doc = collect {| definitions := filter isCollected (definitions doc) |}).
  { unfold collect. simpl. apply collect_filter. }
  split; [exact Hmap|]. split; [|split; [exact Hc|]].
  - intros name. unfold extensionsOf. rewrite Hmap. reflexivity.
  - intros h l options. unfold extendSchemaImpl. rewrite Hc. reflexivity.
Qed.

(** ** Lemmas on no-op documents *)

Lemma isNoop_typeDefs c : isNoop c = true -> typeDefs c = [].
Proof.
  unfold isNoop. intros H.
  repeat (apply andb_prop in H as [H ?]).
  match goal with Hl : Nat.eqb (length (typeDefs c)) 0 = true |- _ =>
    apply Nat.eqb_eq, length_zero_iff_nil in Hl; exact Hl end.
Qed.

(** ** C6: root operation types *)

(** C6: for each operation, the root of the returned configuration is the
    type the schema definition declares for it (its last declaration,
    resolved through the builtin registry and then the new registry); an
    operation it does not declare keeps the original root, re-resolved as
    [typeMap[name]] of the new registry, or the original root itself when the
    call returns the original configuration. *)
Theorem C6_root_operation_types h l doc options h' l' config c op :
  nth_error h l = Some config ->
  extendSchemaImpl h l doc options = Ok (h', l') ->
  nth_error h' l' = Some c ->
  match schemaDef (collect doc) with
  | Some sd =>
      match declaredRoot op sd with
      | Some n => exists r, getNamedType (map typeName (sc_types c)) n = Ok r /\ rootOf op c = Some r
      | None => rootOf op c = option_map replaceNamedType (rootOf op config)
      end
  | None =>
      rootOf op c = if Nat.eqb l' l then rootOf op config
                    else option_map replaceNamedType (rootOf op config)
  end.
Proof.
  intros Hc Hext Hc'.
  destruct (extendSchemaImpl_ok _ _ _ _ _ _ Hext)
    as [[Hn [-> ->]] | [Hn [config' [s1 [s2 [ops [dirs [Hc0 [H1 [H2 [Hops [_ [-> ->]]]]]]]]]]]]].
  - rewrite Hc in Hc'. inversion Hc'; subst c.
    unfold isNoop in Hn. destruct (schemaDef (collect doc)).
    + rewrite andb_false_r in Hn. discriminate.
    + rewrite Nat.eqb_refl. reflexivity.
  - rewrite Hc in Hc0. inversion Hc0; subst config'.
    rewrite nth_error_alloc in Hc'. inversion Hc'; subst c.
    rewrite rootOf_assembleConfig.
    destruct (seeded_registry _ _ _ _ _ H1 H2) as [Hk Hnm].
    simpl sc_types. rewrite names_of_typeMap by exact Hnm.
    destruct (schemaDef (collect doc)) as [sd|].
    + unfold getOperationTypes in Hops. simpl in Hops.
      destruct (getOperationTypes_ops (Obj.keys s2) emptyOpTypes
                  (coalesce (schd_operationTypes sd) [])) as [o|e] eqn:Eo;
        simpl in Hops; [|discriminate].
      inversion Hops; subst o.
      pose proof (getOperationTypes_ops_get _ op _ _ _ Eo) as Hg.
      unfold declaredRoot. destruct (declaredIn op (coalesce (schd_operationTypes sd) [])).
      * destruct Hg as [r [Hr Hop]]. exists r. rewrite Hop. auto.
      * rewrite Hg. destruct op; reflexivity.
    + inversion Hops; subst ops.
      assert (Hlt : l < length h) by (apply nth_error_Some; congruence).
      replace (Nat.eqb (length h) l) with false by (symmetry; apply Nat.eqb_neq; lia).
      destruct op; reflexivity.
Qed.

Lemma C6_root_operation_types_witness :
  (exists r, getNamedType (map typeName (sc_types sampleWithSchema)) "T" = Ok r
             /\ rootOf MUTATION sampleWithSchema = Some r) /\
  rootOf QUERY sampleWithSchema = option_map replaceNamedType (rootOf QUERY sampleConfig).
Proof.
  split.
  - exact (C6_root_operation_types sampleHeap 0 docSchemaMutation noOptions
             (sampleHeap ++ [sampleWithSchema]) 1 sampleConfig sampleWithSchema MUTATION
             eq_refl ltac:(vm_compute; reflexivity) eq_refl).
  - exact (C6_root_operation_types sampleHeap 0 docSchemaMutation noOptions
             (sampleHeap ++ [sampleWithSchema]) 1 sampleConfig sampleWithSchema QUERY
             eq_refl ltac:(vm_compute; reflexivity) eq_refl).
Defined.

(** ** Lemmas on the classification loop *)

Lemma collect_decomp defs : forall c,
  fold_left collectDefinition defs c =
  {| typeDefs := typeDefs c ++ typeDefsOf defs;
     typeExtensionsMap := typeExtensionsMap c;
     directiveDefs := directiveDefs c ++ directiveDefsOf defs;
     schemaDef := fold_left (fun acc d => match d with SchemaDefinition n => Some n | _ => acc end)
                    defs (schemaDef c) |}.
Proof.
  induction defs as [|d defs IH]; simpl; intros c.
  - destruct c; simpl. rewrite !app_nil_r. reflexivity.
  - rewrite IH. destruct d; simpl; rewrite <- ?app_assoc; reflexivity.
Qed.




(** ** Lemmas on where an unknown type name is reported *)

Lemma getNamedType_err reg n e :
  getNamedType reg n = Err e -> e = UnknownType n /\ isStdName n = false /\ ~ In n reg.
Proof.
  unfold getNamedType. destruct (isStdName n); [discriminate|].
  destruct (existsb (String.eqb n) reg) eqn:E; [discriminate|].
  intros H; inversion H; subst. split; [reflexivity|split; [reflexivity|]].
  intros Hin.
  assert (existsb (String.eqb n) reg = true) as Ht
    by (apply existsb_exists; exists n; split; [exact Hin | apply String.eqb_refl]).
  congruence.
Qed.

Lemma getWrappedType_err reg t e :
  getWrappedType reg t = Err e -> getNamedType reg (typeNodeName t) = Err e.
Proof.
  induction t as [n|t IH|t IH]; simpl.
  - destruct (getNamedType reg n); simpl; congruence.
  - destruct (getWrappedType reg t); simpl; [discriminate|]. intros H; apply IH; exact H.
  - destruct (getWrappedType reg t); simpl; [discriminate|]. intros H; apply IH; exact H.
Qed.

Lemma buildArgumentMap_loop_err reg args : forall acc e,
  buildArgumentMap_loop reg acc args = Err e ->
  exists a, In a args /\ getNamedType reg (typeNodeName (iv_type a)) = Err e.
Proof.
  induction args as [|a args IH]; simpl; intros acc e H; [discriminate|].
  destruct (getWrappedType reg (iv_type a)) as [ty|e'] eqn:E; simpl in H.
  - destruct (IH _ _ H) as [a' [Hin Ha']]. exists a'. split; [right; exact Hin | exact Ha'].
  - inversion H; subst. exists a. split; [left; reflexivity|]. apply getWrappedType_err, E.
Qed.

Lemma mapM_err {A B} (f : A -> Result B) xs e :
  mapM f xs = Err e -> exists x, In x xs /\ f x = Err e.
Proof.
  induction xs as [|x xs IH]; simpl; [discriminate|].
  destruct (f x) as [y|e'] eqn:E; simpl.
  - destruct (mapM f xs) as [ys|e'']; simpl; [discriminate|].
    intros H. destruct (IH H) as [x' [Hin Hx']]. exists x'. split; [right; exact Hin | exact Hx'].
  - intros H; inversion H; subst. exists x. split; [left; reflexivity | exact E].
Qed.

Lemma buildDirective_err reg d e :
  buildDirective reg d = Err e ->
  exists n, In n (directiveArgTypeNames d) /\ getNamedType reg n = Err e.
Proof.
  unfold buildDirective, buildArgumentMap, directiveArgTypeNames.
  destruct (buildArgumentMap_loop reg [] (coalesce (dirn_arguments d) [])) eqn:E; simpl;
    [discriminate|].
  intros H; inversion H; subst.
  destruct (buildArgumentMap_loop_err _ _ _ _ E) as [a [Hin Ha]].
  exists (typeNodeName (iv_type a)). split; [apply (in_map (fun a => typeNodeName (iv_type a))), Hin | exact Ha].
Qed.

Lemma getOperationTypes_ops_err reg ops : forall acc e,
  getOperationTypes_ops reg acc ops = Err e ->
  exists ot, In ot ops /\ getNamedType reg (otd_type ot) = Err e.
Proof.
  induction ops as [|ot ops IH]; simpl; intros acc e H; [discriminate|].
  destruct (getNamedType reg (otd_type ot)) as [r|e'] eqn:E; simpl in H.
  - destruct (IH _ _ H) as [ot' [Hin Hot']]. exists ot'. split; [right; exact Hin | exact Hot'].
  - inversion H; subst. exists ot. split; [left; reflexivity | exact E].
Qed.

Lemma getOperationTypes_err reg sd e :
  getOperationTypes reg [sd] = Err e ->
  exists n, In n (declaredRootNames sd) /\ getNamedType reg n = Err e.
Proof.
  unfold getOperationTypes, declaredRootNames. simpl.
  destruct (getOperationTypes_ops reg emptyOpTypes (coalesce (schd_operationTypes sd) []))
    eqn:E; simpl; [discriminate|].
  intros H; inversion H; subst.
  destruct (getOperationTypes_ops_err _ _ _ _ E) as [ot [Hin Hot]].
  exists (otd_type ot). split; [apply in_map, Hin | exact Hot].
Qed.

(** rebuilding a type whose bodies read fails only on an unexpected kind *)
Lemma extendNamedType_err X t e :
  bodiesRead t -> extendNamedType X t = Err e -> exists s, e = Invariant s.
Proof.
  unfold extendNamedType. destruct (isBuiltinType t); [discriminate|].
  destruct t as [n|n d u a|n d i f a|n d i f a|n d ts a|n d [fs|vs] a]; simpl; intros Hb.
  - intros H; inversion H; subst. eexists; reflexivity.
  - unfold extendScalarType. discriminate.
  - destruct Hb as [[x Hx] [y Hy]]. unfold extendObjectType. rewrite Hx, Hy. discriminate.
  - destruct Hb as [[x Hx] [y Hy]]. unfold extendInterfaceType. rewrite Hx, Hy. discriminate.
  - destruct Hb as [x Hx]. unfold extendUnionType. rewrite Hx. discriminate.
  - destruct Hb as [y Hy]. unfold extendInputObjectType. rewrite Hy. discriminate.
  - unfold extendEnumType. discriminate.
Qed.

Lemma seedExisting_err X types : Forall bodiesRead types -> forall m e,
  seedExisting X m types = Err e -> exists s, e = Invariant s.
Proof.
  induction 1 as [|t types Ht Hts IH]; simpl; intros m e; [discriminate|].
  destruct (extendNamedType X t) as [o|e'] eqn:E; simpl.
  - apply IH.
  - intros H; inversion H; subst. exact (extendNamedType_err _ _ _ Ht E).
Qed.

(** building a new type fails only on a malformed data definition *)
Lemma newTypeEntry_err X td e : newTypeEntry X td = Err e -> exists s, e = TypeError s.
Proof.
  unfold newTypeEntry. destruct (stdTypeMap (typeDefName td)); [discriminate|].
  unfold buildType. destruct td as [n|n|n|n|n]; try discriminate.
  destruct (dd_variants n) as [|v [|v' vs]].
  - intros H; inversion H; subst. eexists; reflexivity.
  - destruct (vd_fields v) as [fs|].
    + destruct (Nat.ltb 0 (length fs)); discriminate.
    + intros H; inversion H; subst. eexists; reflexivity.
  - discriminate.
Qed.

Lemma seedNew_err X tds : forall m e,
  seedNew X m tds = Err e -> exists s, e = TypeError s.
Proof.
  induction tds as [|td tds IH]; simpl; intros m e; [discriminate|].
  destruct (newTypeEntry X td) as [o|e'] eqn:E; simpl.
  - apply IH.
  - intros H; inversion H; subst. exact (newTypeEntry_err _ _ _ E).
Qed.

(** * Further properties of the code *)

(** ** Lists and objects *)

Lemma find_app_l {A} (p : A -> bool) (xs ys : list A) :
  find p (xs ++ ys) = match find p xs with Some x => Some x | None => find p ys end.
Proof. induction xs as [|x xs IH]; simpl; [reflexivity|]. destruct (p x); [reflexivity|exact IH]. Qed.

Lemma lastNamed_cons {A} (name : A -> string) k x xs :
  lastNamed name k (x :: xs) =
  match lastNamed name k xs with
  | Some y => Some y
  | None => if String.eqb (name x) k then Some x else None
  end.
Proof.
  unfold lastNamed. simpl. rewrite find_app_l.
  destruct (find _ (rev xs)); simpl; [reflexivity|].
  destruct (String.eqb (name x) k); reflexivity.
Qed.

Lemma lastNamed_app {A} (name : A -> string) k (xs ys : list A) :
  lastNamed name k (xs ++ ys) =
  match lastNamed name k ys with Some y => Some y | None => lastNamed name k xs end.
Proof. unfold lastNamed. rewrite rev_app_distr, find_app_l. reflexivity. Qed.

Lemma get_mapValue {A B} (o : Obj.t A) (f : A -> B) k :
  Obj.get k (Obj.mapValue o f) = option_map f (Obj.get k o).
Proof.
  induction o as [|[k' v] o IH]; simpl; [reflexivity|].
  destruct (String.eqb k k'); [reflexivity|exact IH].
Qed.

Lemma get_assign {A} (o2 : Obj.t A) : forall (o1 : Obj.t A) k,
  NoDup (Obj.keys o2) ->
  Obj.get k (Obj.assign o1 o2) = orElse (Obj.get k o2) (Obj.get k o1).
Proof.
  unfold Obj.assign.
  induction o2 as [|[k' v] o2 IH]; simpl; intros o1 k Hnd; [reflexivity|].
  inversion Hnd as [|? ? Hnin Hnd']; subst.
  rewrite IH by exact Hnd'. rewrite ObjFacts.get_set.
  destruct (String.eqb k k') eqn:E; [|reflexivity].
  apply String.eqb_eq in E; subst k'.
  destruct (Obj.get k o2) eqn:Eg; [|reflexivity].
  exfalso. apply Hnin. apply ObjFacts.get_in in Eg.
  apply (in_map fst) in Eg. exact Eg.
Qed.

(** ** Resolving names *)

Lemma getNamedType_spec reg n :
  getNamedType reg n = if resolves reg n then Ok (refOf n) else Err (UnknownType n).
Proof.
  unfold getNamedType, resolves, refOf.
  destruct (isStdName n); simpl; [reflexivity|].
  destruct (existsb (String.eqb n) reg); reflexivity.
Qed.

Lemma getWrappedType_spec reg t :
  getWrappedType reg t =
  if resolves reg (typeNodeName t) then Ok (wrapNode t (refOf (typeNodeName t)))
  else Err (UnknownType (typeNodeName t)).
Proof.
  induction t as [n|t IH|t IH]; simpl.
  - rewrite getNamedType_spec. destruct (resolves reg n); reflexivity.
  - rewrite IH. destruct (resolves reg (typeNodeName t)); reflexivity.
  - rewrite IH. destruct (resolves reg (typeNodeName t)); reflexivity.
Qed.

Lemma mapM_getNamedType reg ns :
  mapM (getNamedType reg) ns =
  match firstUnresolved reg ns with
  | Some n => Err (UnknownType n)
  | None => Ok (map refOf ns)
  end.
Proof.
  unfold firstUnresolved.
  induction ns as [|n ns IH]; simpl; [reflexivity|].
  rewrite getNamedType_spec.
  destruct (resolves reg n); simpl; [|reflexivity].
  rewrite IH. destruct (find _ ns); reflexivity.
Qed.

Lemma replaceType_wrapNode t r : replaceType (wrapNode t r) = wrapNode t (RegRef (refName r)).
Proof. induction t as [n|t IH|t IH]; simpl; rewrite ?IH; reflexivity. Qed.

Lemma refName_refOf n : refName (refOf n) = n.
Proof. unfold refOf. destruct (isStdName n); reflexivity. Qed.

(** ** Argument maps *)

Lemma buildArgumentMap_loop_app reg a : forall acc b,
  buildArgumentMap_loop reg acc (a ++ b)
  = bind (buildArgumentMap_loop reg acc a) (fun acc' => buildArgumentMap_loop reg acc' b).
Proof.
  induction a as [|x a IH]; simpl; intros acc b; [reflexivity|].
  destruct (getWrappedType reg (iv_type x)); simpl; [apply IH|reflexivity].
Qed.

Lemma buildArgumentMap_loop_resolution reg args : forall acc,
  match firstUnresolved reg (map (fun a => typeNodeName (iv_type a)) args) with
  | Some n => buildArgumentMap_loop reg acc args = Err (UnknownType n)
  | None => exists m, buildArgumentMap_loop reg acc args = Ok m
  end.
Proof.
  unfold firstUnresolved.
  induction args as [|a args IH]; simpl; intros acc; [eexists; reflexivity|].
  rewrite getWrappedType_spec.
  destruct (resolves reg (typeNodeName (iv_type a))); simpl; [apply IH|reflexivity].
Qed.

Lemma buildArgumentMap_loop_last reg args : forall acc m,
  buildArgumentMap_loop reg acc args = Ok m ->
  forall k, match lastNamed iv_name k args with
            | Some a => exists ty, getWrappedType reg (iv_type a) = Ok ty /\
                                   Obj.get k m = Some (argumentConfigOf a ty)
            | None => Obj.get k m = Obj.get k acc
            end.
Proof.
  induction args as [|a args IH]; simpl; intros acc m H k.
  - inversion H; subst. reflexivity.
  - destruct (getWrappedType reg (iv_type a)) as [ty|e] eqn:E; simpl in H; [|discriminate].
    specialize (IH _ _ H k). rewrite lastNamed_cons.
    destruct (lastNamed iv_name k args) as [a'|]; [exact IH|].
    rewrite IH. destruct (String.eqb (iv_name a) k) eqn:Ek.
    + apply String.eqb_eq in Ek; subst k. exists ty.
      rewrite ObjFacts.get_set, String.eqb_refl. split; [exact E|reflexivity].
    + rewrite ObjFacts.get_set, String.eqb_sym, Ek. reflexivity.
Qed.

Lemma buildArgumentMap_loop_nodup reg args : forall acc m,
  buildArgumentMap_loop reg acc args = Ok m -> NoDup (Obj.keys acc) -> NoDup (Obj.keys m).
Proof.
  induction args as [|a args IH]; simpl; intros acc m H Hnd.
  - inversion H; subst; exact Hnd.
  - destruct (getWrappedType reg (iv_type a)); simpl in H; [|discriminate].
    exact (IH _ _ H (ObjFacts.nodup_keys_set _ _ _ Hnd)).
Qed.

(** ** Field maps *)

Lemma buildFieldMap_fields_app reg a : forall acc b,
  buildFieldMap_fields reg acc (a ++ b)
  = bind (buildFieldMap_fields reg acc a) (fun acc' => buildFieldMap_fields reg acc' b).
Proof.
  induction a as [|x a IH]; simpl; intros acc b; [reflexivity|].
  destruct (getWrappedType reg (fd_type x)); simpl; [|reflexivity].
  destruct (buildArgumentMap reg (fd_arguments x)); simpl; [apply IH|reflexivity].
Qed.

Lemma buildFieldMap_loop_flat reg nodes : forall acc,
  buildFieldMap_loop reg acc nodes = buildFieldMap_fields reg acc (nodeFieldList nodes).
Proof.
  unfold nodeFieldList.
  induction nodes as [|n nodes IH]; simpl; intros acc; [reflexivity|].
  rewrite buildFieldMap_fields_app.
  destruct (buildFieldMap_fields reg acc (coalesce (nodeFields n) [])); simpl; [apply IH|reflexivity].
Qed.

Lemma buildFieldMap_fields_last reg fs : forall acc m,
  buildFieldMap_fields reg acc fs = Ok m ->
  forall k, match lastNamed fd_name k fs with
            | Some f => exists ty args, getWrappedType reg (fd_type f) = Ok ty /\
                          buildArgumentMap reg (fd_arguments f) = Ok args /\
                          Obj.get k m = Some (fieldConfigOf f ty args)
            | None => Obj.get k m = Obj.get k acc
            end.
Proof.
  induction fs as [|f fs IH]; simpl; intros acc m H k.
  - inversion H; subst. reflexivity.
  - destruct (getWrappedType reg (fd_type f)) as [ty|e] eqn:E; simpl in H; [|discriminate].
    destruct (buildArgumentMap reg (fd_arguments f)) as [args|e] eqn:Ea; simpl in H; [|discriminate].
    specialize (IH _ _ H k). rewrite lastNamed_cons.
    destruct (lastNamed fd_name k fs) as [f'|]; [exact IH|].
    rewrite IH. destruct (String.eqb (fd_name f) k) eqn:Ek.
    + apply String.eqb_eq in Ek; subst k. exists ty, args.
      rewrite ObjFacts.get_set, String.eqb_refl. split; [exact E|split; [exact Ea|reflexivity]].
    + rewrite ObjFacts.get_set, String.eqb_sym, Ek. reflexivity.
Qed.

Lemma buildFieldMap_fields_nodup reg fs : forall acc m,
  buildFieldMap_fields reg acc fs = Ok m -> NoDup (Obj.keys acc) -> NoDup (Obj.keys m).
Proof.
  induction fs as [|f fs IH]; simpl; intros acc m H Hnd.
  - inversion H; subst; exact Hnd.
  - destruct (getWrappedType reg (fd_type f)); simpl in H; [|discriminate].
    destruct (buildArgumentMap reg (fd_arguments f)); simpl in H; [|discriminate].
    exact (IH _ _ H (ObjFacts.nodup_keys_set _ _ _ Hnd)).
Qed.

Lemma buildFieldMap_nodup reg nodes m :
  buildFieldMap reg nodes = Ok m -> NoDup (Obj.keys m).
Proof.
  unfold buildFieldMap. rewrite buildFieldMap_loop_flat. intros H.
  exact (buildFieldMap_fields_nodup _ _ _ _ H (NoDup_nil _)).
Qed.

Lemma buildFieldMap_fields_resolution reg fs : forall acc,
  match firstUnresolved reg (flat_map fieldTypeNames fs) with
  | Some n => buildFieldMap_fields reg acc fs = Err (UnknownType n)
  | None => exists m, buildFieldMap_fields reg acc fs = Ok m
  end.
Proof.
  induction fs as [|f fs IH]; simpl; intros acc; [eexists; reflexivity|].
  unfold fieldTypeNames. simpl. unfold firstUnresolved. simpl.
  rewrite getWrappedType_spec.
  destruct (resolves reg (typeNodeName (fd_type f))); simpl; [|reflexivity].
  rewrite find_app_l.
  pose proof (buildArgumentMap_loop_resolution reg (coalesce (fd_arguments f) []) []) as HA.
  unfold firstUnresolved in HA. unfold buildArgumentMap.
  destruct (find _ (map (fun a => typeNodeName (iv_type a)) (coalesce (fd_arguments f) [])))
    as [n|].
  - rewrite HA. reflexivity.
  - destruct HA as [args HA]. rewrite HA. simpl.
    specialize (IH (Obj.set (fd_name f)
      {| fc_type := wrapNode (fd_type f) (refOf (typeNodeName (fd_type f)));
         fc_description := fd_description f; fc_args := args;
         fc_deprecationReason := getDeprecationReason_fd f; fc_astNode := Some f |} acc)).
    unfold firstUnresolved in IH. exact IH.
Qed.

(** ** Input-field maps, enum-value maps, interfaces and members *)

Lemma buildInputFieldMap_loop_flat reg nodes : forall acc,
  (forall n, In n nodes -> firstVariantFields n <> None) ->
  buildInputFieldMap_loop reg acc nodes
  = buildArgumentMap_loop reg acc (flat_map (fun n => coalesce (firstVariantFields n) []) nodes).
Proof.
  induction nodes as [|n nodes IH]; simpl; intros acc H; [reflexivity|].
  assert (Hn := H n (or_introl eq_refl)).
  unfold firstVariantFields in Hn |- * at 1.
  destruct (nodeVariants n) as [[|v0 vs]|]; try (exfalso; apply Hn; reflexivity).
  simpl. rewrite buildArgumentMap_loop_app.
  destruct (buildArgumentMap_loop reg acc (coalesce (vd_fields v0) [])); simpl; [|reflexivity].
  apply IH. intros n' Hin. apply H. right. exact Hin.
Qed.

Lemma buildEnumValueMap_values_app a : forall acc b,
  buildEnumValueMap_values acc (a ++ b) = buildEnumValueMap_values (buildEnumValueMap_values acc a) b.
Proof. induction a as [|v a IH]; simpl; intros acc b; [reflexivity|apply IH]. Qed.

Lemma buildEnumValueMap_values_get vs : forall acc k,
  Obj.get k (buildEnumValueMap_values acc vs)
  = match lastNamed vd_name k vs with
    | Some v => Some (enumValueConfigOf v)
    | None => Obj.get k acc
    end.
Proof.
  induction vs as [|v vs IH]; simpl; intros acc k; [reflexivity|].
  rewrite IH, lastNamed_cons.
  destruct (lastNamed vd_name k vs); [reflexivity|].
  destruct (String.eqb (vd_name v) k) eqn:Ek.
  - apply String.eqb_eq in Ek; subst k. rewrite ObjFacts.get_set, String.eqb_refl. reflexivity.
  - rewrite ObjFacts.get_set, String.eqb_sym, Ek. reflexivity.
Qed.

Lemma buildEnumValueMap_values_nodup vs : forall acc,
  NoDup (Obj.keys acc) -> NoDup (Obj.keys (buildEnumValueMap_values acc vs)).
Proof.
  induction vs as [|v vs IH]; simpl; intros acc Hnd; [exact Hnd|].
  apply IH, ObjFacts.nodup_keys_set, Hnd.
Qed.

Lemma buildEnumValueMap_flat nodes : forall acc,
  fold_left (fun acc node => buildEnumValueMap_values acc (coalesce (nodeVariants node) [])) nodes acc
  = buildEnumValueMap_values acc (variantList nodes).
Proof.
  unfold variantList.
  induction nodes as [|n nodes IH]; simpl; intros acc; [reflexivity|].
  rewrite IH, buildEnumValueMap_values_app. reflexivity.
Qed.

Lemma buildEnumValueMap_nodup nodes : NoDup (Obj.keys (buildEnumValueMap nodes)).
Proof.
  unfold buildEnumValueMap. rewrite buildEnumValueMap_flat.
  apply buildEnumValueMap_values_nodup, NoDup_nil.
Qed.

Lemma buildEnumValueMap_get nodes k :
  Obj.get k (buildEnumValueMap nodes) = option_map enumValueConfigOf (lastNamed vd_name k (variantList nodes)).
Proof.
  unfold buildEnumValueMap. rewrite buildEnumValueMap_flat, buildEnumValueMap_values_get.
  destruct (lastNamed vd_name k (variantList nodes)); reflexivity.
Qed.

(** ** Building and rebuilding types *)

Lemma bind_Ok {A} (m : Result A) : bind m Ok = m.
Proof. destruct m; reflexivity. Qed.

Lemma extendNamedType_shape X t o :
  extendNamedType X t = Ok o -> forall reg,
  typeName (o reg) = typeName t /\ kindOf (o reg) = kindOf t /\ descriptionOf (o reg) = descriptionOf t.
Proof.
  unfold extendNamedType. destruct (isBuiltinType t).
  - intros H reg; inversion H; subst; repeat split.
  - destruct t as [n|n d u a|n d i f a|n d i f a|n d ts a|n d [fs|vs] a]; intros H reg.
    + discriminate.
    + unfold extendScalarType in H. inversion H; subst. repeat split.
    + unfold extendObjectType in H. split_binds. inversion H; subst. repeat split.
    + unfold extendInterfaceType in H. split_binds. inversion H; subst. repeat split.
    + unfold extendUnionType in H. split_binds. inversion H; subst. repeat split.
    + unfold extendInputObjectType in H. split_binds. inversion H; subst. repeat split.
    + unfold extendEnumType in H. inversion H; subst. repeat split.
Qed.

Lemma buildType_ok_shape X td o :
  buildType X td = Ok o -> forall reg,
  typeName (o reg) = typeDefName td /\ kindOf (o reg) = defKind td /\
  descriptionOf (o reg) = defDescription td.
Proof.
  destruct td as [n|n|n|n|n]; simpl; intros H reg.
  - inversion H; subst. repeat split.
  - inversion H; subst. repeat split.
  - inversion H; subst. repeat split.
  - inversion H; subst. repeat split.
  - unfold isRecordDefinition.
    destruct (dd_variants n) as [|v [|v' vs]]; [discriminate| |inversion H; subst; repeat split].
    destruct (vd_fields v) as [[|f fs]|]; simpl in H; [| |discriminate];
      inversion H; subst; repeat split.
Qed.

Lemma buildType_err_iff X td :
  (forall e, buildType X td = Err e -> malformedData td = true /\ exists s, e = TypeError s) /\
  (malformedData td = false -> exists o, buildType X td = Ok o).
Proof.
  destruct td as [n|n|n|n|n]; simpl;
    try (split; [discriminate | intros _; eexists; reflexivity]).
  destruct (dd_variants n) as [|v [|v' vs]].
  - split; [intros e H; inversion H; subst; split; [reflexivity|eexists; reflexivity] | discriminate].
  - destruct (vd_fields v) as [[|f fs]|]; simpl.
    + split; [discriminate | intros _; eexists; reflexivity].
    + split; [discriminate | intros _; eexists; reflexivity].
    + split; [intros e H; inversion H; subst; split; [reflexivity|eexists; reflexivity] | discriminate].
  - split; [discriminate | intros _; eexists; reflexivity].
Qed.

Lemma fold_specifiedBy exts : forall u,
  fold_left (fun u ext => orElse (getSpecifiedByURL ext) u) exts u = orElse (lastSpecifiedBy exts) u.
Proof.
  induction exts as [|x exts IH] using rev_ind; intros u; [reflexivity|].
  rewrite fold_left_app. simpl. rewrite IH.
  unfold lastSpecifiedBy. rewrite rev_app_distr. simpl.
  destruct (getSpecifiedByURL x) as [url|] eqn:E; simpl; [rewrite E; reflexivity|].
  reflexivity.
Qed.

Lemma buildInputFieldMap_loop_nodup reg nodes : forall acc m,
  buildInputFieldMap_loop reg acc nodes = Ok m -> NoDup (Obj.keys acc) -> NoDup (Obj.keys m).
Proof.
  induction nodes as [|n nodes IH]; simpl; intros acc m H Hnd.
  - inversion H; subst; exact Hnd.
  - destruct (nodeVariants n) as [[|v0 vs]|]; try discriminate.
    destruct (buildArgumentMap_loop reg acc (coalesce (vd_fields v0) [])) as [acc'|e] eqn:E;
      simpl in H; [|discriminate].
    exact (IH _ _ H (buildArgumentMap_loop_nodup _ _ _ _ E Hnd)).
Qed.

(** ** The configuration [extendSchemaImpl] returns *)

Lemma isNoop_parts c :
  isNoop c = true -> typeDefs c = [] /\ directiveDefs c = [] /\ schemaDef c = None.
Proof.
  unfold isNoop. intros H.
  apply andb_prop in H as [H Hs]. apply andb_prop in H as [H Hd]. apply andb_prop in H as [_ Ht].
  apply Nat.eqb_eq, length_zero_iff_nil in Ht. apply Nat.eqb_eq, length_zero_iff_nil in Hd.
  destruct (schemaDef c); [discriminate|]. auto.
Qed.

Lemma mapM_buildDirective_names reg ds : forall ys,
  mapM (buildDirective reg) ds = Ok ys -> map dir_name ys = map dirn_name ds.
Proof.
  induction ds as [|d ds IH]; simpl; intros ys H.
  - inversion H; subst; reflexivity.
  - unfold buildDirective at 1 in H.
    destruct (buildArgumentMap reg (dirn_arguments d)); simpl in H; [|discriminate].
    destruct (mapM (buildDirective reg) ds) as [ys'|e] eqn:E; simpl in H; [|discriminate].
    inversion H; subst. simpl. f_equal. apply IH. reflexivity.
Qed.

Lemma in_values_mapValue {A B} (o : Obj.t A) (f : A -> B) k v :
  In (k, v) o -> In (f v) (Obj.values (Obj.mapValue o f)).
Proof.
  unfold Obj.values, Obj.mapValue. rewrite map_map. intros H.
  apply (in_map (fun x => snd (fst x, f (snd x)))) in H. exact H.
Qed.

Lemma lastTypeNamed_some name types t :
  lastTypeNamed name types = Some t -> In t types /\ typeName t = name.
Proof.
  unfold lastTypeNamed. intros H. apply find_some in H as [Hin Heq].
  split; [apply in_rev, Hin | apply String.eqb_eq, Heq].
Qed.

Lemma extendNamedType_err_builtin X t e :
  bodiesRead t -> extendNamedType X t = Err e ->
  exists n, t = BuiltinType n /\ isStdName n = false /\ e = Invariant "Unexpected type".
Proof.
  intros Hb H. destruct (extendNamedType_err _ _ _ Hb H) as [s ->].
  unfold extendNamedType in H. destruct (isBuiltinType t) eqn:Eb; [discriminate|].
  destruct t as [n|n d u a|n d i f a|n d i f a|n d ts a|n d [fs|vs] a].
  - exists n. inversion H; subst. split; [reflexivity|split; [exact Eb|reflexivity]].
  - discriminate.
  - destruct Hb as [[x Hx] [y Hy]]. unfold extendObjectType in H. rewrite Hx, Hy in H. discriminate.
  - destruct Hb as [[x Hx] [y Hy]]. unfold extendInterfaceType in H. rewrite Hx, Hy in H. discriminate.
  - destruct Hb as [x Hx]. unfold extendUnionType in H. rewrite Hx in H. discriminate.
  - destruct Hb as [y Hy]. unfold extendInputObjectType in H. rewrite Hy in H. discriminate.
  - discriminate.
Qed.

Lemma seedExisting_err_src X types : Forall bodiesRead types -> forall m e,
  seedExisting X m types = Err e ->
  exists n, In (BuiltinType n) types /\ isStdName n = false /\ e = Invariant "Unexpected type".
Proof.
  induction 1 as [|t types Ht Hts IH]; simpl; intros m e; [discriminate|].
  destruct (extendNamedType X t) as [o|e'] eqn:E; simpl.
  - intros H. destruct (IH _ _ H) as [n [Hin Hn]]. exists n. split; [right; exact Hin | exact Hn].
  - intros H; inversion H; subst.
    destruct (extendNamedType_err_builtin _ _ _ Ht E) as [n [-> Hn]].
    exists n. split; [left; reflexivity | exact Hn].
Qed.

Lemma seedNew_err_src X tds : forall m e,
  seedNew X m tds = Err e ->
  exists td, In td tds /\ isStdName (typeDefName td) = false /\ malformedData td = true /\
             exists s, e = TypeError s.
Proof.
  induction tds as [|td tds IH]; simpl; intros m e; [discriminate|].
  destruct (newTypeEntry X td) as [o|e'] eqn:E; simpl.
  - intros H. destruct (IH _ _ H) as [td' [Hin Hrest]]. exists td'. split; [right; exact Hin | exact Hrest].
  - intros H; inversion H; subst. exists td. split; [left; reflexivity|].
    unfold newTypeEntry, stdTypeMap in E. destruct (isStdName (typeDefName td)) eqn:Es; [discriminate|].
    split; [reflexivity|]. exact (proj1 (buildType_err_iff X td) _ E).
Qed.

(** ** [extendSchema] *)

Lemma extendSchema_steps v w s doc options w' s' :
  extendSchema v w s doc options = Ok (w', s') ->
  exists g, nth_error (schemas w) s = Some g /\
  exists h' l', extendSchemaImpl (configs w ++ [schemaConfigOf g]) (length (configs w)) doc options
                = Ok (h', l') /\
  ((Nat.eqb (length (configs w)) l' = true /\ w' = {| schemas := schemas w; configs := h' |} /\ s' = s) \/
   (Nat.eqb (length (configs w)) l' = false /\
    exists c, nth_error h' l' = Some c /\
    w' = {| schemas := schemas w ++ [{| schemaConfigOf := c |}]; configs := h' |} /\
    s' = length (schemas w))).
Proof.
  unfold extendSchema.
  destruct (nth_error (schemas w) s) as [g|] eqn:Eg; simpl; [|discriminate].
  intros H. exists g. split; [reflexivity|].
  destruct (if skipsValidation options then Ok tt else v doc g) as [[]|e]; simpl in H; [|discriminate].
  destruct (extendSchemaImpl (configs w ++ [schemaConfigOf g]) (length (configs w)) doc options)
    as [[h' l']|e]; simpl in H; [|discriminate].
  exists h', l'. split; [reflexivity|].
  destruct (Nat.eqb (length (configs w)) l') eqn:El.
  - left. inversion H; subst. auto.
  - right. split; [reflexivity|]. unfold deref in H.
    destruct (nth_error h' l') as [c|]; simpl in H; [|discriminate].
    exists c. inversion H; subst. auto.
Qed.

(** * Further properties: statements *)

(** ** Resolving type expressions *)

(** X1: [getWrappedType] succeeds exactly when the named type of the
    expression is a builtin name or a key of the registry; the result keeps
    the list and non-null wrappers of the expression around a reference to
    the builtin type (which takes precedence) or to the registry entry.
    Otherwise it fails with UnknownType of that name. *)
Theorem getWrappedType_resolution reg t :
  getWrappedType reg t =
  if resolves reg (typeNodeName t) then Ok (wrapNode t (refOf (typeNodeName t)))
  else Err (UnknownType (typeNodeName t)).
Proof.
  induction t as [n|t IH|t IH]; simpl.
  - rewrite getNamedType_spec. destruct (resolves reg n); reflexivity.
  - rewrite IH. destruct (resolves reg (typeNodeName t)); reflexivity.
  - rewrite IH. destruct (resolves reg (typeNodeName t)); reflexivity.
Qed.

(** X2: [replaceType] applied to a type built by [getWrappedType] keeps its
    wrappers and rebinds the named type to the registry entry of that name,
    a builtin reference included. *)
Theorem replaceType_rebinds_to_registry reg t ty :
  getWrappedType reg t = Ok ty -> replaceType ty = wrapNode t (RegRef (typeNodeName t)).
Proof.
  rewrite getWrappedType_spec. destruct (resolves reg (typeNodeName t)); [|discriminate].
  intros H; inversion H; subst.
  rewrite replaceType_wrapNode, refName_refOf. reflexivity.
Qed.

Lemma replaceType_rebinds_to_registry_witness :
  replaceType (TList (TNamed (StdRef "String")))
  = wrapNode (ListTypeNode (NamedTypeNode "String")) (RegRef (typeNodeName (ListTypeNode (NamedTypeNode "String")))).
Proof.
  apply (replaceType_rebinds_to_registry sampleReg (ListTypeNode (NamedTypeNode "String"))).
  reflexivity.
Defined.

(** ** Argument, field, input-field and enum-value maps *)

(** X3: [buildArgumentMap] fails with UnknownType of the first argument type
    name, in argument order, that resolves neither to a builtin nor to the
    registry, and succeeds when there is none. *)
Theorem buildArgumentMap_resolution reg args :
  match firstUnresolved reg (map (fun a => typeNodeName (iv_type a)) (coalesce args [])) with
  | Some n => buildArgumentMap reg args = Err (UnknownType n)
  | None => exists m, buildArgumentMap reg args = Ok m
  end.
Proof. apply buildArgumentMap_loop_resolution. Qed.

(** X4: in the map [buildArgumentMap] returns, a name is bound to the entry
    built from the last argument with that name (a later duplicate overwrites
    an earlier one), and is absent when no argument has that name. *)
Theorem buildArgumentMap_last_wins reg args m :
  buildArgumentMap reg args = Ok m ->
  forall k, match lastNamed iv_name k (coalesce args []) with
            | Some a => exists ty, getWrappedType reg (iv_type a) = Ok ty /\
                                   Obj.get k m = Some (argumentConfigOf a ty)
            | None => Obj.get k m = None
            end.
Proof. intros H k. exact (buildArgumentMap_loop_last _ _ _ _ H k). Qed.

Lemma buildArgumentMap_last_wins_witness :
  match lastNamed iv_name "x" (coalesce sampleArgs []) with
  | Some a => exists ty, getWrappedType sampleReg (iv_type a) = Ok ty /\
                         Obj.get "x" sampleArgMap = Some (argumentConfigOf a ty)
  | None => Obj.get "x" sampleArgMap = None
  end.
Proof. apply (buildArgumentMap_last_wins sampleReg sampleArgs sampleArgMap). reflexivity. Defined.

(** X5: [buildFieldMap] reads the fields of all its nodes in order; a field
    name is bound to the entry built from the last field with that name
    (a field of a later node overwrites one of an earlier node), and is
    absent when no node has a field of that name. *)
Theorem buildFieldMap_last_wins reg nodes m :
  buildFieldMap reg nodes = Ok m ->
  forall k, match lastNamed fd_name k (nodeFieldList nodes) with
            | Some f => exists ty args, getWrappedType reg (fd_type f) = Ok ty /\
                          buildArgumentMap reg (fd_arguments f) = Ok args /\
                          Obj.get k m = Some (fieldConfigOf f ty args)
            | None => Obj.get k m = None
            end.
Proof.
  unfold buildFieldMap. rewrite buildFieldMap_loop_flat. intros H k.
  exact (buildFieldMap_fields_last _ _ _ _ H k).
Qed.

Lemma buildFieldMap_last_wins_witness :
  match lastNamed fd_name "x" (nodeFieldList sampleFieldNodes) with
  | Some f => exists ty args, getWrappedType sampleReg (fd_type f) = Ok ty /\
                buildArgumentMap sampleReg (fd_arguments f) = Ok args /\
                Obj.get "x" sampleFieldMap = Some (fieldConfigOf f ty args)
  | None => Obj.get "x" sampleFieldMap = None
  end.
Proof. apply (buildFieldMap_last_wins sampleReg sampleFieldNodes sampleFieldMap). reflexivity. Defined.

(** X6: [buildFieldMap] fails with UnknownType of the first unresolved name
    among, field after field over all nodes, the field's type and then its
    argument types; it succeeds when every such name resolves. *)
Theorem buildFieldMap_resolution reg nodes :
  match firstUnresolved reg (flat_map fieldTypeNames (nodeFieldList nodes)) with
  | Some n => buildFieldMap reg nodes = Err (UnknownType n)
  | None => exists m, buildFieldMap reg nodes = Ok m
  end.
Proof. unfold buildFieldMap. rewrite buildFieldMap_loop_flat. apply buildFieldMap_fields_resolution. Qed.

(** X7: [buildInputFieldMap] reads only the first variant of each node: when
    every node has a first variant, it is [buildArgumentMap] of the
    concatenated fields of those first variants (later variants are
    ignored); a node without variants makes it throw a TypeError. *)
Theorem buildInputFieldMap_first_variant reg :
  (forall nodes,
     forallb (fun n => match firstVariantFields n with Some _ => true | None => false end) nodes = true ->
     buildInputFieldMap reg nodes
     = buildArgumentMap reg (Some (flat_map (fun n => coalesce (firstVariantFields n) []) nodes))) /\
  (forall n rest, firstVariantFields n = None ->
     buildInputFieldMap reg (n :: rest) = Err (TypeError "Cannot read properties of undefined")).
Proof.
  split.
  - intros nodes H. unfold buildInputFieldMap, buildArgumentMap. simpl.
    apply buildInputFieldMap_loop_flat. intros n Hin Hn.
    rewrite forallb_forall in H. specialize (H n Hin). rewrite Hn in H. discriminate.
  - intros n rest H. unfold buildInputFieldMap. simpl.
    unfold firstVariantFields in H.
    destruct (nodeVariants n) as [[|v vs]|]; [reflexivity|discriminate|reflexivity].
Qed.

Lemma buildInputFieldMap_first_variant_witness :
  buildInputFieldMap sampleReg [dataTwoVariants]
  = buildArgumentMap sampleReg (Some (flat_map (fun n => coalesce (firstVariantFields n) []) [dataTwoVariants])) /\
  buildInputFieldMap sampleReg [dataNoVariants; dataTwoVariants]
  = Err (TypeError "Cannot read properties of undefined").
Proof.
  split.
  - apply (proj1 (buildInputFieldMap_first_variant sampleReg) [dataTwoVariants]). reflexivity.
  - apply (proj2 (buildInputFieldMap_first_variant sampleReg) dataNoVariants [dataTwoVariants]).
    reflexivity.
Defined.

(** X8: [buildEnumValueMap] never fails and has distinct keys; a value name
    is bound to the entry of the last variant with that name over all the
    nodes, and is absent when no variant has that name. *)
Theorem buildEnumValueMap_last_wins nodes :
  NoDup (Obj.keys (buildEnumValueMap nodes)) /\
  forall k, Obj.get k (buildEnumValueMap nodes)
            = option_map enumValueConfigOf (lastNamed vd_name k (variantList nodes)).
Proof. split; [apply buildEnumValueMap_nodup | intros k; apply buildEnumValueMap_get]. Qed.

(** ** Interfaces and union members *)

(** X9: [buildInterfaces] resolves the interface names of all nodes in
    order: it fails with UnknownType of the first one that does not resolve,
    and otherwise returns their references, duplicates kept. *)
Theorem buildInterfaces_resolution reg nodes :
  buildInterfaces reg nodes =
  match firstUnresolved reg (interfaceNames nodes) with
  | Some n => Err (UnknownType n)
  | None => Ok (map refOf (interfaceNames nodes))
  end.
Proof.
  unfold interfaceNames.
  induction nodes as [|n nodes IH]; simpl; [reflexivity|].
  rewrite mapM_getNamedType, IH. unfold firstUnresolved. rewrite find_app_l.
  destruct (find _ (coalesce (nodeInterfaces n) [])); simpl; [reflexivity|].
  destruct (find _ (flat_map _ nodes)); simpl; [reflexivity|].
  rewrite map_app. reflexivity.
Qed.

(** X10: [buildUnionTypes] resolves the member names of all nodes in order:
    it fails with UnknownType of the first one that does not resolve, and
    otherwise returns their references, duplicates kept. *)
Theorem buildUnionTypes_resolution reg nodes :
  buildUnionTypes reg nodes =
  match firstUnresolved reg (memberNames nodes) with
  | Some n => Err (UnknownType n)
  | None => Ok (map refOf (memberNames nodes))
  end.
Proof.
  unfold memberNames.
  induction nodes as [|n nodes IH]; simpl; [reflexivity|].
  rewrite mapM_getNamedType, IH. unfold firstUnresolved. rewrite find_app_l.
  destruct (find _ (coalesce (nodeTypes n) [])); simpl; [reflexivity|].
  destruct (find _ (flat_map _ nodes)); simpl; [reflexivity|].
  rewrite map_app. reflexivity.
Qed.

(** ** The classification loop *)

(** X12: the classification loop keeps the type definitions and the
    directive definitions in document order, and the last schema
    definition. *)
Theorem collect_document_order doc :
  typeDefs (collect doc) = typeDefsOf (definitions doc) /\
  directiveDefs (collect doc) = directiveDefsOf (definitions doc) /\
  schemaDef (collect doc) = lastSchemaDef (definitions doc).
Proof. unfold collect. rewrite collect_decomp. simpl. repeat split. Qed.

(** ** Rebuilding existing types *)

(** X16: a type [extendNamedType] rebuilds keeps its name, its kind and its
    description, whatever registry closes it. *)
Theorem extendNamedType_keeps_shape X t o :
  extendNamedType X t = Ok o -> forall reg,
  typeName (o reg) = typeName t /\ kindOf (o reg) = kindOf t /\ descriptionOf (o reg) = descriptionOf t.
Proof. apply extendNamedType_shape. Qed.

Lemma extendNamedType_keeps_shape_witness :
  typeName (extendedT sampleReg) = typeName sampleT /\ kindOf (extendedT sampleReg) = kindOf sampleT /\
  descriptionOf (extendedT sampleReg) = descriptionOf sampleT.
Proof. apply (extendNamedType_keeps_shape sampleExtensions sampleT extendedT). reflexivity. Defined.

(** X17: the fields of a rebuilt object or interface type are the original
    fields, each passed through [extendField], merged with the fields built
    from the extension nodes of its name, an extension field overriding an
    original field of the same name; when building the extension fields
    fails, reading the fields fails with that error. *)
Theorem extendNamedType_fields_merge X t fs o :
  isBuiltinType t = false -> readFields t = Some (Ok fs) -> extendNamedType X t = Ok o ->
  forall reg,
  match buildFieldMap reg (extensionsOf X (typeName t)) with
  | Ok extFs => exists m, readFields (o reg) = Some (Ok m) /\
      forall k, Obj.get k m = orElse (Obj.get k extFs) (option_map extendField (Obj.get k fs))
  | Err e => readFields (o reg) = Some (Err e)
  end.
Proof.
  intros Hb Hr H reg. unfold extendNamedType in H. rewrite Hb in H.
  destruct t as [n|n d u a|n d i f a|n d i f a|n d ts a|n d [fs'|vs] a]; try discriminate Hr;
    simpl in Hr; injection Hr as Hf.
  - unfold extendObjectType in H. rewrite Hf in H. split_binds. injection H as <-. simpl.
    destruct (buildFieldMap reg (extensionsOf X n)) as [extFs|e] eqn:Ef; simpl; [|reflexivity].
    eexists; split; [reflexivity|]. intros k.
    rewrite get_assign by exact (buildFieldMap_nodup _ _ _ Ef). rewrite get_mapValue. reflexivity.
  - unfold extendInterfaceType in H. rewrite Hf in H. split_binds. injection H as <-. simpl.
    destruct (buildFieldMap reg (extensionsOf X n)) as [extFs|e] eqn:Ef; simpl; [|reflexivity].
    eexists; split; [reflexivity|]. intros k.
    rewrite get_assign by exact (buildFieldMap_nodup _ _ _ Ef). rewrite get_mapValue. reflexivity.
Qed.

Lemma extendNamedType_fields_merge_witness :
  match buildFieldMap sampleReg (extensionsOf sampleExtensions (typeName sampleT)) with
  | Ok extFs => exists m, readFields (extendedT sampleReg) = Some (Ok m) /\
      forall k, Obj.get k m = orElse (Obj.get k extFs) (option_map extendField (Obj.get k [("a", stringField)]))
  | Err e => readFields (extendedT sampleReg) = Some (Err e)
  end.
Proof.
  apply (extendNamedType_fields_merge sampleExtensions sampleT [("a", stringField)] extendedT);
    reflexivity.
Defined.

(** X18: a rebuilt scalar type keeps its name, description and AST node; its
    specifiedBy URL is the one of the last extension node of its name that
    has one, else its original URL. *)
Theorem extendNamedType_scalar_url X n d u a o :
  isStdName n = false -> extendNamedType X (ScalarType n d u a) = Ok o ->
  forall reg, o reg = ScalarType n d (orElse (lastSpecifiedBy (extensionsOf X n)) u) a.
Proof.
  intros Hs H reg. unfold extendNamedType, isBuiltinType in H. cbn [typeName] in H.
  rewrite Hs in H. cbv iota beta in H. unfold extendScalarType in H.
  rewrite fold_specifiedBy in H. injection H as <-. reflexivity.
Qed.

Lemma extendNamedType_scalar_url_witness :
  extendedDate sampleReg
  = ScalarType "Date" None (orElse (lastSpecifiedBy (extensionsOf sampleExtensions "Date")) (Some "u0")) None.
Proof. apply (extendNamedType_scalar_url sampleExtensions "Date" None (Some "u0") None); reflexivity. Defined.

(** X19: a rebuilt sum type keeps its name, description and AST node; its
    values are the original values merged with the variants of the extension
    nodes of its name, the last extension variant of a name overriding an
    original value of that name. *)
Theorem extendNamedType_enum_values X n d vs a o :
  isStdName n = false -> extendNamedType X (DataType n d (DataValues vs) a) = Ok o ->
  forall reg, exists m, o reg = DataType n d (DataValues m) a /\
  forall k, Obj.get k m = orElse (option_map enumValueConfigOf
                                   (lastNamed vd_name k (variantList (extensionsOf X n))))
                                 (Obj.get k vs).
Proof.
  intros Hs H reg. unfold extendNamedType, isBuiltinType in H. cbn [typeName] in H.
  rewrite Hs in H. cbv iota beta in H. unfold extendEnumType in H. injection H as <-.
  eexists; split; [reflexivity|]. intros k.
  rewrite get_assign by apply buildEnumValueMap_nodup. rewrite buildEnumValueMap_get. reflexivity.
Qed.

Lemma extendNamedType_enum_values_witness :
  exists m, extendedColor sampleReg = DataType "Color" None (DataValues m) None /\
  forall k, Obj.get k m = orElse (option_map enumValueConfigOf
                                   (lastNamed vd_name k (variantList (extensionsOf sampleExtensions "Color"))))
                                 (Obj.get k [("RED", {| ev_description := Some "red"; ev_deprecationReason := None;
                                                       ev_astNode := None |})]).
Proof. apply (extendNamedType_enum_values sampleExtensions "Color" None); reflexivity. Defined.

(** X20: the fields of a rebuilt record type are the original fields, each
    passed through [extendArg], merged with the input fields built from the
    extension nodes of its name, an extension field overriding an original
    field of the same name; when building the extension fields fails,
    reading the fields fails with that error. *)
Theorem extendNamedType_input_fields_merge X t fs o :
  isBuiltinType t = false -> readInputFields t = Some (Ok fs) -> extendNamedType X t = Ok o ->
  forall reg,
  match buildInputFieldMap reg (extensionsOf X (typeName t)) with
  | Ok extFs => exists m, readInputFields (o reg) = Some (Ok m) /\
      forall k, Obj.get k m = orElse (Obj.get k extFs) (option_map extendArg (Obj.get k fs))
  | Err e => readInputFields (o reg) = Some (Err e)
  end.
Proof.
  intros Hb Hr H reg. unfold extendNamedType in H. rewrite Hb in H.
  destruct t as [n|n d u a|n d i f a|n d i f a|n d ts a|n d [fs'|vs] a]; try discriminate Hr;
    simpl in Hr; injection Hr as Hf.
  unfold extendInputObjectType in H. rewrite Hf in H. simpl in H. injection H as <-. simpl.
  destruct (buildInputFieldMap reg (extensionsOf X n)) as [extFs|e] eqn:Ef; simpl; [|reflexivity].
  eexists; split; [reflexivity|]. intros k.
  rewrite get_assign by exact (buildInputFieldMap_loop_nodup _ _ _ _ Ef (NoDup_nil _)).
  rewrite get_mapValue. reflexivity.
Qed.

Lemma extendNamedType_input_fields_merge_witness :
  match buildInputFieldMap sampleReg (extensionsOf sampleExtensions (typeName sampleIn)) with
  | Ok extFs => exists m, readInputFields (extendedIn sampleReg) = Some (Ok m) /\
      forall k, Obj.get k m = orElse (Obj.get k extFs) (option_map extendArg (Obj.get k [("p", sampleArgConfig)]))
  | Err e => readInputFields (extendedIn sampleReg) = Some (Err e)
  end.
Proof.
  apply (extendNamedType_input_fields_merge sampleExtensions sampleIn [("p", sampleArgConfig)] extendedIn);
    reflexivity.
Defined.

(** ** Building new types *)

(** X21: a type built by [buildType] has the definition's name and
    description, and the kind of the definition (a data definition is a
    record exactly when it has one variant with a non-empty field list,
    else a sum type); [buildType] fails only on a data definition without a
    variant or with a single variant without fields, with a TypeError, and
    succeeds on every other definition. *)
Theorem buildType_shape X td :
  (forall o, buildType X td = Ok o -> forall reg,
     typeName (o reg) = typeDefName td /\ kindOf (o reg) = defKind td /\
     descriptionOf (o reg) = defDescription td) /\
  (forall e, buildType X td = Err e -> malformedData td = true /\ exists s, e = TypeError s) /\
  (malformedData td = false -> exists o, buildType X td = Ok o).
Proof.
  split; [apply buildType_ok_shape|]. exact (buildType_err_iff X td).
Qed.

Lemma buildType_shape_witness :
  (typeName (builtT' sampleReg) = typeDefName defT' /\ kindOf (builtT' sampleReg) = defKind defT' /\
   descriptionOf (builtT' sampleReg) = defDescription defT') /\
  (malformedData dataNoVariants = true /\
   exists s, TypeError "Cannot read properties of undefined (reading 'fields')" = TypeError s) /\
  (exists o, buildType [] (DataTypeDefinition dataColors) = Ok o).
Proof.
  split; [|split].
  - apply (proj1 (buildType_shape [] defT') builtT'). reflexivity.
  - apply (proj1 (proj2 (buildType_shape [] dataNoVariants))). reflexivity.
  - apply (proj2 (proj2 (buildType_shape [] (DataTypeDefinition dataColors)))). reflexivity.
Defined.

(** X22: a record built by [buildType] reads its fields as
    [buildArgumentMap] of its single variant's fields; a sum type built by
    [buildType] has the value map of its variants, the last variant of a
    name giving the entry of that name. *)
Theorem buildType_data_contents X n o :
  buildType X (DataTypeDefinition n) = Ok o -> forall reg,
  if isRecordDefinition n
  then exists v, dd_variants n = [v] /\ readInputFields (o reg) = Some (buildArgumentMap reg (vd_fields v))
  else exists m, readValues (o reg) = Some m /\
       forall k, Obj.get k m = option_map enumValueConfigOf (lastNamed vd_name k (dd_variants n)).
Proof.
  simpl. intros H reg. unfold isRecordDefinition.
  destruct (dd_variants n) as [|v [|v' vs]] eqn:Ev; [discriminate| |].
  - destruct (vd_fields v) as [[|f fs]|] eqn:Ef; simpl in H; [| |discriminate]; injection H as <-.
    + eexists; split; [reflexivity|]. intros k. rewrite buildEnumValueMap_get.
      unfold variantList. simpl. rewrite Ev. reflexivity.
    + exists v. split; [reflexivity|]. simpl. unfold buildInputFieldMap. simpl. rewrite Ev.
      rewrite bind_Ok. reflexivity.
  - injection H as <-. eexists; split; [reflexivity|]. intros k. rewrite buildEnumValueMap_get.
    unfold variantList. simpl. rewrite Ev, app_nil_r. reflexivity.
Qed.

Lemma buildType_data_contents_witness :
  (if isRecordDefinition dataRecord
   then exists v, dd_variants dataRecord = [v] /\
                  readInputFields (builtRecord sampleReg) = Some (buildArgumentMap sampleReg (vd_fields v))
   else exists m, readValues (builtRecord sampleReg) = Some m /\
        forall k, Obj.get k m = option_map enumValueConfigOf (lastNamed vd_name k (dd_variants dataRecord))) /\
  (if isRecordDefinition dataColors
   then exists v, dd_variants dataColors = [v] /\
                  readInputFields (builtColors sampleReg) = Some (buildArgumentMap sampleReg (vd_fields v))
   else exists m, readValues (builtColors sampleReg) = Some m /\
        forall k, Obj.get k m = option_map enumValueConfigOf (lastNamed vd_name k (dd_variants dataColors))).
Proof.
  split.
  - apply (buildType_data_contents [] dataRecord builtRecord). reflexivity.
  - apply (buildType_data_contents [] dataColors builtColors). reflexivity.
Defined.

(** ** The configuration [extendSchemaImpl] returns *)

(** X11: the directives of the returned configuration are, in order, the
    snapshot's directives (rebuilt under the same names) followed by one
    directive per directive definition of the document, in document order,
    duplicates kept. *)
Theorem extendSchemaImpl_directive_names h l doc options h' l' config c :
  nth_error h l = Some config ->
  extendSchemaImpl h l doc options = Ok (h', l') ->
  nth_error h' l' = Some c ->
  map dir_name (sc_directives c)
  = map dir_name (sc_directives config) ++ map dirn_name (directiveDefs (collect doc)).
Proof.
  intros Hc Hext Hc'.
  destruct (extendSchemaImpl_ok _ _ _ _ _ _ Hext)
    as [[Hn [-> ->]] | [_ [config' [s1 [s2 [ops [dirs [Hc0 [H1 [H2 [H3 [H4 [-> ->]]]]]]]]]]]]].
  - rewrite Hc in Hc'. inversion Hc'; subst c.
    destruct (isNoop_parts _ Hn) as [_ [-> _]]. simpl. rewrite app_nil_r. reflexivity.
  - rewrite Hc in Hc0. inversion Hc0; subst config'.
    rewrite nth_error_alloc in Hc'. inversion Hc'; subst c. simpl.
    rewrite map_app, map_map, (mapM_buildDirective_names _ _ _ H4). reflexivity.
Qed.

Lemma extendSchemaImpl_directive_names_witness :
  map dir_name (sc_directives sampleWithDirective)
  = map dir_name (sc_directives sampleConfig) ++ map dirn_name (directiveDefs (collect docDirective)).
Proof.
  apply (extendSchemaImpl_directive_names sampleHeap 0 docDirective noOptions
           (sampleHeap ++ [sampleWithDirective]) 1 sampleConfig).
  - reflexivity.
  - vm_compute. reflexivity.
  - reflexivity.
Defined.

(** X15: the type names of the returned configuration are exactly the type
    names of the snapshot together with the names of the document's type
    definitions: no type is lost and no other name appears. *)
Theorem extendSchemaImpl_type_names h l doc options h' l' config c :
  nth_error h l = Some config ->
  extendSchemaImpl h l doc options = Ok (h', l') ->
  nth_error h' l' = Some c ->
  forall n, In n (map typeName (sc_types c)) <->
            In n (map typeName (sc_types config)) \/ In n (map typeDefName (typeDefs (collect doc))).
Proof.
  intros Hc Hext Hc' n.
  destruct (extendSchemaImpl_ok _ _ _ _ _ _ Hext)
    as [[Hn [-> ->]] | [_ [config' [s1 [s2 [ops [dirs [Hc0 [H1 [H2 [H3 [H4 [-> ->]]]]]]]]]]]]].
  - rewrite Hc in Hc'. inversion Hc'; subst c.
    rewrite (isNoop_typeDefs _ Hn). simpl. tauto.
  - rewrite Hc in Hc0. inversion Hc0; subst config'.
    rewrite nth_error_alloc in Hc'. inversion Hc'; subst c. simpl.
    destruct (seeded_registry _ _ _ _ _ H1 H2) as [_ Hnm].
    rewrite names_of_typeMap by exact Hnm.
    rewrite (seedNew_keys _ _ _ _ H2), (seedExisting_keys _ _ _ _ H1). simpl. tauto.
Qed.

Lemma extendSchemaImpl_type_names_witness :
  In "A" (map typeName (sc_types sampleExtended)) <->
  In "A" (map typeName (sc_types sampleConfig)) \/ In "A" (map typeDefName (typeDefs (collect docNewType))).
Proof.
  apply (extendSchemaImpl_type_names sampleHeap 0 docNewType noOptions
           (sampleHeap ++ [sampleExtended]) 1 sampleConfig).
  - reflexivity.
  - vm_compute. reflexivity.
  - reflexivity.
Defined.

(** X26: a type of the snapshot whose name no type definition of the
    document uses is still in the returned configuration under its name,
    with its kind and description (the last type of that name in the
    snapshot). *)
Theorem extendSchemaImpl_keeps_unredefined_types h l doc options h' l' config c n t :
  nth_error h l = Some config ->
  extendSchemaImpl h l doc options = Ok (h', l') ->
  nth_error h' l' = Some c ->
  lastTypeNamed n (sc_types config) = Some t ->
  lastTypeDefNamed n (typeDefs (collect doc)) = None ->
  exists t', In t' (sc_types c) /\ typeName t' = n /\
             kindOf t' = kindOf t /\ descriptionOf t' = descriptionOf t.
Proof.
  intros Hc Hext Hc' Ht Hd.
  destruct (lastTypeNamed_some _ _ _ Ht) as [Hin Hname].
  destruct (extendSchemaImpl_ok _ _ _ _ _ _ Hext)
    as [[Hn [-> ->]] | [_ [config' [s1 [s2 [ops [dirs [Hc0 [H1 [H2 [H3 [H4 [-> ->]]]]]]]]]]]]].
  - rewrite Hc in Hc'. inversion Hc'; subst c.
    exists t. auto.
  - rewrite Hc in Hc0. inversion Hc0; subst config'.
    rewrite nth_error_alloc in Hc'. inversion Hc'; subst c. simpl.
    pose proof (seedExisting_get _ _ _ _ n H1) as G1. rewrite Ht in G1.
    destruct G1 as [o [Ho Hg1]].
    pose proof (seedNew_get _ _ _ _ n H2) as G2. rewrite Hd, Hg1 in G2.
    exists (o (Obj.keys s2)).
    destruct (extendNamedType_shape _ _ _ Ho (Obj.keys s2)) as [Hn1 [Hk Hds]].
    split; [|split; [congruence|split; assumption]].
    apply (in_values_mapValue s2 (fun t => t (Obj.keys s2)) n o).
    apply ObjFacts.get_in, G2.
Qed.

Lemma extendSchemaImpl_keeps_unredefined_types_witness :
  exists t', In t' (sc_types sampleExtended) /\ typeName t' = "T" /\
             kindOf t' = kindOf sampleT /\ descriptionOf t' = descriptionOf sampleT.
Proof.
  apply (extendSchemaImpl_keeps_unredefined_types sampleHeap 0 docNewType noOptions
           (sampleHeap ++ [sampleExtended]) 1 sampleConfig).
  - reflexivity.
  - vm_compute. reflexivity.
  - reflexivity.
  - reflexivity.
  - reflexivity.
Defined.

(** X23: when the snapshot's types read their bodies without error, a
    failing call fails with UnknownType, or with a TypeError from a
    non-builtin data definition of the document without a variant or with a
    single variant without fields, or with "Unexpected type" from a type of
    the snapshot that is a builtin object of a name outside [stdTypeMap]. *)
Theorem extendSchemaImpl_error_sources h l doc options config e :
  nth_error h l = Some config ->
  Forall bodiesRead (sc_types config) ->
  extendSchemaImpl h l doc options = Err e ->
  (exists n, e = UnknownType n) \/
  (exists td, In td (typeDefs (collect doc)) /\ isStdName (typeDefName td) = false /\
              malformedData td = true /\ exists s, e = TypeError s) \/
  (exists n, In (BuiltinType n) (sc_types config) /\ isStdName n = false /\
             e = Invariant "Unexpected type").
Proof.
  intros Hc Hb Hext.
  unfold extendSchemaImpl in Hext. cbv zeta in Hext.
  destruct (isNoop (collect doc)); [discriminate|].
  unfold deref in Hext. rewrite Hc in Hext. simpl in Hext.
  destruct (seedExisting (typeExtensionsMap (collect doc)) [] (sc_types config))
    as [s1|e1] eqn:E1; simpl in Hext.
  2:{ inversion Hext; subst e1. right; right. exact (seedExisting_err_src _ _ Hb _ _ E1). }
  destruct (seedNew (typeExtensionsMap (collect doc)) s1 (typeDefs (collect doc)))
    as [s2|e2] eqn:E2; simpl in Hext.
  2:{ inversion Hext; subst e2. right; left. exact (seedNew_err_src _ _ _ _ E2). }
  left.
  destruct (match schemaDef (collect doc) with
            | Some sd => getOperationTypes (Obj.keys s2) [sd]
            | None => Ok emptyOpTypes
            end) as [ops|e3] eqn:E3; simpl in Hext.
  - destruct (mapM (buildDirective (Obj.keys s2)) (directiveDefs (collect doc)))
      as [dirs|e4] eqn:E4; simpl in Hext; [discriminate|].
    inversion Hext; subst e4.
    destruct (mapM_err _ _ _ E4) as [d [_ Hbd]].
    destruct (buildDirective_err _ _ _ Hbd) as [n [_ Hg]].
    exists n. exact (proj1 (getNamedType_err _ _ _ Hg)).
  - inversion Hext; subst e3.
    destruct (schemaDef (collect doc)) as [sd|]; [|discriminate].
    destruct (getOperationTypes_err _ _ _ E3) as [n [_ Hg]].
    exists n. exact (proj1 (getNamedType_err _ _ _ Hg)).
Qed.

Lemma extendSchemaImpl_error_sources_witness :
  (exists n, TypeError "Cannot read properties of undefined (reading 'length')" = UnknownType n) \/
  (exists td, In td (typeDefs (collect docDataNoFields)) /\ isStdName (typeDefName td) = false /\
              malformedData td = true /\
              exists s, TypeError "Cannot read properties of undefined (reading 'length')" = TypeError s) \/
  (exists n, In (BuiltinType n) (sc_types sampleConfig) /\ isStdName n = false /\
             TypeError "Cannot read properties of undefined (reading 'length')" = Invariant "Unexpected type").
Proof.
  assert (Hb : Forall bodiesRead (sc_types sampleConfig)).
  { simpl. repeat apply Forall_cons; try apply Forall_nil; simpl;
      repeat split; eexists; reflexivity. }
  apply (extendSchemaImpl_error_sources sampleHeap 0 docDataNoFields noOptions sampleConfig).
  - reflexivity.
  - exact Hb.
  - vm_compute. reflexivity.
Defined.

(** ** [extendSchema] *)

(** X24: [extendSchema] returns the schema it was given exactly when the
    document is a no-op; otherwise it returns a new schema, and every schema
    that existed before is unchanged. *)
Theorem extendSchema_identity v w s doc options w' s' :
  extendSchema v w s doc options = Ok (w', s') ->
  (s' = s <-> isNoop (collect doc) = true) /\
  (forall i, i < length (schemas w) -> nth_error (schemas w') i = nth_error (schemas w) i).
Proof.
  intros H.
  destruct (extendSchema_steps _ _ _ _ _ _ _ H)
    as [g [Eg [h' [l' [Ei [[El [-> ->]] | [El [c [Ec [-> ->]]]]]]]]]].
  - apply Nat.eqb_eq in El.
    destruct (extendSchemaImpl_ok _ _ _ _ _ _ Ei)
      as [[Hn _] | [_ [config' [s1 [s2 [ops [dirs [_ [_ [_ [_ [_ [_ Hl]]]]]]]]]]]]].
    + split; [tauto | reflexivity].
    + rewrite length_app in Hl. simpl in Hl. lia.
  - apply Nat.eqb_neq in El.
    destruct (extendSchemaImpl_ok _ _ _ _ _ _ Ei) as [[_ [_ Hl]] | [Hn _]].
    + exfalso. apply El. symmetry. exact Hl.
    + assert (Hs : s < length (schemas w)) by (apply nth_error_Some; congruence).
      split.
      * split; intros Hx; [lia | congruence].
      * intros i Hi. simpl. apply nth_error_app1, Hi.
Qed.

Lemma extendSchema_identity_witness :
  (snd sampleWorldExtended = 0 <-> isNoop (collect docNewType) = true) /\
  (forall i, i < length (schemas sampleWorld) ->
             nth_error (schemas (fst sampleWorldExtended)) i = nth_error (schemas sampleWorld) i).
Proof.
  apply (extendSchema_identity acceptAll sampleWorld 0 docNewType noOptions).
  vm_compute. reflexivity.
Defined.

(** X25: with [assumeValid] or [assumeValidSDL] set, the SDL validator is
    never consulted; without them, a validation error of the document
    against the given schema is the result of [extendSchema]. *)
Theorem extendSchema_validation w s doc options :
  (skipsValidation options = true ->
   forall v1 v2, extendSchema v1 w s doc options = extendSchema v2 w s doc options) /\
  (forall v g e, skipsValidation options = false -> nth_error (schemas w) s = Some g ->
   v doc g = Err e -> extendSchema v w s doc options = Err e).
Proof.
  split.
  - intros Hs v1 v2. unfold extendSchema. rewrite Hs. reflexivity.
  - intros v g e Hs Hg Hv. unfold extendSchema. rewrite Hs, Hg. cbn [bind]. rewrite Hv. reflexivity.
Qed.

Lemma extendSchema_validation_witness :
  extendSchema acceptAll sampleWorld 0 docNewType assumeValidOptions
  = extendSchema rejectAll sampleWorld 0 docNewType assumeValidOptions /\
  extendSchema rejectAll sampleWorld 0 docNewType noOptions = Err (TypeError "Invalid SDL extension").
Proof.
  split.
  - apply (proj1 (extendSchema_validation sampleWorld 0 docNewType assumeValidOptions)). reflexivity.
  - apply (proj2 (extendSchema_validation sampleWorld 0 docNewType noOptions) rejectAll
             {| schemaConfigOf := sampleConfig |}); reflexivity.
Defined.

(** ** When a call succeeds, and what the bodies it builds read *)

Lemma resolves_incl r1 r2 n :
  (forall x, In x r1 -> In x r2) -> resolves r1 n = true -> resolves r2 n = true.
Proof.
  unfold resolves. intros Hi H. apply orb_true_iff in H as [H|H]; [rewrite H; reflexivity|].
  apply existsb_exists in H as [x [Hx Hn]]. apply orb_true_iff. right.
  apply existsb_exists. exists x. auto.
Qed.


Lemma buildInterfaces_spec reg nodes :
  buildInterfaces reg nodes =
  match firstUnresolved reg (interfaceNames nodes) with
  | Some n => Err (UnknownType n)
  | None => Ok (map refOf (interfaceNames nodes))
  end.
Proof.
  unfold interfaceNames.
  induction nodes as [|n nodes IH]; simpl; [reflexivity|].
  rewrite mapM_getNamedType, IH. unfold firstUnresolved. rewrite find_app_l.
  destruct (find _ (coalesce (nodeInterfaces n) [])); simpl; [reflexivity|].
  destruct (find _ (flat_map _ nodes)); simpl; [reflexivity|].
  rewrite map_app. reflexivity.
Qed.

Lemma buildUnionTypes_spec reg nodes :
  buildUnionTypes reg nodes =
  match firstUnresolved reg (memberNames nodes) with
  | Some n => Err (UnknownType n)
  | None => Ok (map refOf (memberNames nodes))
  end.
Proof.
  unfold memberNames.
  induction nodes as [|n nodes IH]; simpl; [reflexivity|].
  rewrite mapM_getNamedType, IH. unfold firstUnresolved. rewrite find_app_l.
  destruct (find _ (coalesce (nodeTypes n) [])); simpl; [reflexivity|].
  destruct (find _ (flat_map _ nodes)); simpl; [reflexivity|].
  rewrite map_app. reflexivity.
Qed.

Lemma buildFieldMap_first_err reg nodes u :
  firstUnresolved reg (flat_map fieldTypeNames (nodeFieldList nodes)) = Some u ->
  buildFieldMap reg nodes = Err (UnknownType u).
Proof.
  intros Hu. unfold buildFieldMap. rewrite buildFieldMap_loop_flat.
  pose proof (buildFieldMap_fields_resolution reg (nodeFieldList nodes) []) as H.
  rewrite Hu in H. exact H.
Qed.

(** the registry of a successful call: the snapshot's names and the
    document's type definition names *)
Lemma seeded_keys_iff X types defs s1 s2 :
  seedExisting X [] types = Ok s1 -> seedNew X s1 defs = Ok s2 ->
  forall k, In k (Obj.keys s2) <-> In k (map typeName types ++ map typeDefName defs).
Proof.
  intros E1 E2 k. rewrite (seedNew_keys _ _ _ _ E2 k), (seedExisting_keys _ _ _ _ E1 k), in_app_iff.
  simpl. tauto.
Qed.

(** the eager checks pass exactly when a non-trivial call succeeds *)
Lemma extendSchemaImpl_succeeds h l doc options config :
  nth_error h l = Some config ->
  Forall bodiesRead (sc_types config) ->
  eagerChecks config (collect doc) = true ->
  exists h' l', extendSchemaImpl h l doc options = Ok (h', l').
Proof.
  intros Hc Hb Hchk.
  unfold eagerChecks in Hchk. cbv zeta in Hchk.
  apply andb_prop in Hchk as [Hchk Hdir]. apply andb_prop in Hchk as [Hchk Hroot].
  apply andb_prop in Hchk as [Hbi Hmal].
  rewrite forallb_forall in Hbi, Hmal, Hroot, Hdir.
  unfold extendSchemaImpl. cbv zeta.
  destruct (isNoop (collect doc)); [eauto|].
  unfold deref. rewrite Hc. cbn [bind].
  destruct (seedExisting (typeExtensionsMap (collect doc)) [] (sc_types config)) as [s1|e] eqn:E1;
    cbn [bind].
  2:{ exfalso. destruct (seedExisting_err_src _ _ Hb _ _ E1) as [n [Hin [Hs _]]].
      specialize (Hbi _ Hin). simpl in Hbi. congruence. }
  destruct (seedNew (typeExtensionsMap (collect doc)) s1 (typeDefs (collect doc))) as [s2|e] eqn:E2;
    cbn [bind].
  2:{ exfalso. destruct (seedNew_err_src _ _ _ _ E2) as [td [Hin [Hs [Hm _]]]].
      specialize (Hmal _ Hin). rewrite Hs, Hm in Hmal. discriminate. }
  assert (Hreg : forall n,
    resolves (map typeName (sc_types config) ++ map typeDefName (typeDefs (collect doc))) n = true ->
    resolves (Obj.keys s2) n = true).
  { intros n. apply resolves_incl. intros x Hx.
    apply (seeded_keys_iff _ _ _ _ _ E1 E2 x). exact Hx. }
  destruct (match schemaDef (collect doc) with
            | Some sd => getOperationTypes (Obj.keys s2) [sd]
            | None => Ok emptyOpTypes end) as [ops|e] eqn:E3; cbn [bind].
  - destruct (mapM (buildDirective (Obj.keys s2)) (directiveDefs (collect doc))) as [dirs|e] eqn:E4;
      cbn [bind]; [eauto|].
    exfalso. destruct (mapM_err _ _ _ E4) as [d [Hd Hbd]].
    destruct (buildDirective_err _ _ _ Hbd) as [n [Hn Hg]].
    assert (Hr := Hreg n (Hdir n (proj2 (in_flat_map _ _ _) (ex_intro _ d (conj Hd Hn))))).
    rewrite getNamedType_spec, Hr in Hg. discriminate.
  - exfalso. destruct (schemaDef (collect doc)) as [sd|]; [|discriminate].
    destruct (getOperationTypes_err _ _ _ E3) as [n [Hn Hg]].
    assert (Hr := Hreg n (Hroot n Hn)). rewrite getNamedType_spec, Hr in Hg. discriminate.
Qed.









(** the first unresolved name read by a body of a built type is the error
    that body raises when it is read *)
Lemma buildType_bodies td t reg :
  buildType [] td = Ok t ->
  (forall u, firstUnresolved reg (flat_map fieldTypeNames (nodeFieldList [td])) = Some u ->
     readFields (t reg) = Some (Err (UnknownType u))) /\
  (forall u, firstUnresolved reg (interfaceNames [td]) = Some u ->
     readInterfaces (t reg) = Some (Err (UnknownType u))) /\
  (forall u, firstUnresolved reg (memberNames [td]) = Some u ->
     readMembers (t reg) = Some (Err (UnknownType u))) /\
  (forall u, firstUnresolved reg (recordFieldNames td) = Some u ->
     readInputFields (t reg) = Some (Err (UnknownType u))).
Proof.
  unfold buildType. destruct td as [n|n|n|n|n]; intros H.
  - injection H as <-. repeat split; intros u Hu; try discriminate Hu.
    + exact (f_equal Some (buildFieldMap_first_err _ _ _ Hu)).
    + assert (E := buildInterfaces_spec reg [ObjectTypeDefinition n]). rewrite Hu in E.
      exact (f_equal Some E).
  - injection H as <-. repeat split; intros u Hu; try discriminate Hu.
    + exact (f_equal Some (buildFieldMap_first_err _ _ _ Hu)).
    + assert (E := buildInterfaces_spec reg [InterfaceTypeDefinition n]). rewrite Hu in E.
      exact (f_equal Some E).
  - injection H as <-. repeat split; intros u Hu; try discriminate Hu.
    assert (E := buildUnionTypes_spec reg [UnionTypeDefinition n]). rewrite Hu in E.
    exact (f_equal Some E).
  - injection H as <-. repeat split; intros u Hu; discriminate Hu.
  - unfold recordFieldNames, isRecordDefinition, firstVariantFields.
    cbn [nodeVariants typeDefName].
    destruct (dd_variants n) as [|v [|v' vs]] eqn:Ev; [discriminate| |].
    + destruct (vd_fields v) as [fs|] eqn:Ef; [|discriminate].
      destruct fs as [|f fs]; simpl in H; injection H as <-;
        repeat split; intros u Hu; try discriminate Hu.
      simpl in Hu.
      pose proof (buildArgumentMap_loop_resolution reg (f :: fs) []) as HA.
      simpl in HA. simpl. rewrite Hu in HA.
      unfold buildInputFieldMap. simpl. rewrite Ev, Ef. simpl. rewrite HA. reflexivity.
    + injection H as <-. repeat split; intros u Hu; discriminate Hu.
Qed.

(** ** The types of the returned configuration *)

Lemma typesNamed_in name types t : In t (typesNamed name types) -> In t types.
Proof. unfold typesNamed. intros H. apply filter_In in H as [H _]. exact H. Qed.





(** the type a non-builtin definition of the document, last of its name,
    gives the returned configuration *)
Lemma extendSchemaImpl_newType h l doc options h' l' c td :
  extendSchemaImpl h l doc options = Ok (h', l') -> nth_error h' l' = Some c ->
  lastTypeDefNamed (typeDefName td) (typeDefs (collect doc)) = Some td ->
  isStdName (typeDefName td) = false ->
  exists built,
    buildType (typeExtensionsMap (collect doc)) td = Ok built /\
    typesNamed (typeDefName td) (sc_types c) = [built (map typeName (sc_types c))].
Proof.
  intros Hext Hc' Hlast Hstd.
  destruct (extendSchemaImpl_ok _ _ _ _ _ _ Hext)
    as [[Hn _] | [_ [config' [s1 [s2 [ops [dirs [Hc0 [H1 [H2 [_ [_ [-> ->]]]]]]]]]]]]].
  - rewrite (isNoop_typeDefs _ Hn) in Hlast. discriminate.
  - rewrite nth_error_alloc in Hc'. inversion Hc'; subst c. simpl.
    destruct (seeded_registry _ _ _ _ _ H1 H2) as [Hk Hnm].
    pose proof (seedNew_get _ _ _ _ (typeDefName td) H2) as Hget. rewrite Hlast in Hget.
    destruct Hget as [t [Ht Hg]].
    unfold newTypeEntry, stdTypeMap in Ht. rewrite Hstd in Ht.
    exists t. split; [exact Ht|].
    rewrite names_of_typeMap by exact Hnm.
    rewrite typesNamed_typeMap by assumption. rewrite Hg. reflexivity.
Qed.

Lemma typeExtensionsMap_collect doc : typeExtensionsMap (collect doc) = [].
Proof. unfold collect. rewrite collect_typeExtensionsMap. reflexivity. Qed.

(** ** C3: which unknown names fail the call *)

(** C3 (corrected): given a snapshot whose own types read their bodies
    without error: (a) a successful call never modifies a configuration of
    the heap (it only appends one); (b) the call fails with UnknownType [n]
    only if [n] is neither a builtin name nor a type of the snapshot nor a
    type defined by the document, and [n] is a root operation type of the
    document's schema definition or the type of an argument of one of its
    directive definitions; (c) when the eager checks pass (the snapshot's
    builtin types have builtin names, no data definition is malformed, the
    root operation types and directive argument types resolve) the call
    succeeds, whatever names the type definitions' bodies use; (d) in the
    returned configuration, the type of a non-builtin definition that is the
    last of its name throws UnknownType of the first name that does not
    resolve when its fields, interfaces, union members or input fields are
    read. *)
Theorem C3_unknown_type_only_eager h l doc options config :
  nth_error h l = Some config ->
  Forall bodiesRead (sc_types config) ->
  (forall h' l', extendSchemaImpl h l doc options = Ok (h', l') ->
     forall l0, l0 < length h -> nth_error h' l0 = nth_error h l0) /\
  (forall n, extendSchemaImpl h l doc options = Err (UnknownType n) ->
     isStdName n = false /\
     ~ In n (map typeName (sc_types config)) /\
     ~ In n (map typeDefName (typeDefs (collect doc))) /\
     ((exists sd, schemaDef (collect doc) = Some sd /\ In n (declaredRootNames sd)) \/
      (exists d, In d (directiveDefs (collect doc)) /\ In n (directiveArgTypeNames d)))) /\
  (eagerChecks config (collect doc) = true ->
     exists h' l', extendSchemaImpl h l doc options = Ok (h', l')) /\
  (forall h' l' c td, extendSchemaImpl h l doc options = Ok (h', l') -> nth_error h' l' = Some c ->
     lastTypeDefNamed (typeDefName td) (typeDefs (collect doc)) = Some td ->
     isStdName (typeDefName td) = false ->
     exists t, In t (sc_types c) /\ typeName t = typeDefName td /\
       (forall u, firstUnresolved (map typeName (sc_types c)) (flat_map fieldTypeNames (nodeFieldList [td])) = Some u ->
          readFields t = Some (Err (UnknownType u))) /\
       (forall u, firstUnresolved (map typeName (sc_types c)) (interfaceNames [td]) = Some u ->
          readInterfaces t = Some (Err (UnknownType u))) /\
       (forall u, firstUnresolved (map typeName (sc_types c)) (memberNames [td]) = Some u ->
          readMembers t = Some (Err (UnknownType u))) /\
       (forall u, firstUnresolved (map typeName (sc_types c)) (recordFieldNames td) = Some u ->
          readInputFields t = Some (Err (UnknownType u)))).
Proof.
  intros Hc Hb. split; [|split; [|split]].
  - intros h' l' Hext l0 Hl0.
    destruct (extendSchemaImpl_ok _ _ _ _ _ _ Hext)
      as [[_ [-> ->]] | [_ [config' [s1 [s2 [ops [dirs [_ [_ [_ [_ [_ [-> ->]]]]]]]]]]]]].
    + reflexivity.
    + apply nth_error_app1, Hl0.
  - intros n Hext.
    unfold extendSchemaImpl in Hext. cbv zeta in Hext.
    destruct (isNoop (collect doc)); [discriminate|].
    unfold deref in Hext. rewrite Hc in Hext. simpl in Hext.
    destruct (seedExisting (typeExtensionsMap (collect doc)) [] (sc_types config))
      as [s1|e] eqn:E1; simpl in Hext.
    2:{ inversion Hext; subst. destruct (seedExisting_err _ _ Hb _ _ E1) as [s Hs]. discriminate. }
    destruct (seedNew (typeExtensionsMap (collect doc)) s1 (typeDefs (collect doc)))
      as [s2|e] eqn:E2; simpl in Hext.
    2:{ inversion Hext; subst. destruct (seedNew_err _ _ _ _ E2) as [s Hs]. discriminate. }
    assert (Hreg : forall n', ~ In n' (Obj.keys s2) ->
              ~ In n' (map typeName (sc_types config)) /\
              ~ In n' (map typeDefName (typeDefs (collect doc)))).
    { intros n' Hn'. rewrite (seedNew_keys _ _ _ _ E2), (seedExisting_keys _ _ _ _ E1) in Hn'.
      simpl in Hn'. tauto. }
    destruct (match schemaDef (collect doc) with
              | Some sd => getOperationTypes (Obj.keys s2) [sd]
              | None => Ok emptyOpTypes
              end) as [ops|e] eqn:E3; simpl in Hext.
    + destruct (mapM (buildDirective (Obj.keys s2)) (directiveDefs (collect doc)))
        as [dirs|e] eqn:E4; simpl in Hext; [discriminate|].
      inversion Hext; subst e.
      destruct (mapM_err _ _ _ E4) as [d [Hd Hbd]].
      destruct (buildDirective_err _ _ _ Hbd) as [n' [Hn' Hg]].
      destruct (getNamedType_err _ _ _ Hg) as [Heq [Hstd Hnin]].
      inversion Heq; subst n'.
      destruct (Hreg n Hnin) as [Ht Hd'].
      repeat split; auto. right. exists d. split; assumption.
    + inversion Hext; subst e.
      destruct (schemaDef (collect doc)) as [sd|]; [|discriminate].
      destruct (getOperationTypes_err _ _ _ E3) as [n' [Hn' Hg]].
      destruct (getNamedType_err _ _ _ Hg) as [Heq [Hstd Hnin]].
      inversion Heq; subst n'.
      destruct (Hreg n Hnin) as [Ht Hd'].
      repeat split; auto. left. exists sd. split; [reflexivity | assumption].
  - exact (extendSchemaImpl_succeeds h l doc options config Hc Hb).
  - intros h' l' c td Hext Hc' Hlast Hstd.
    destruct (extendSchemaImpl_newType _ _ _ _ _ _ _ _ Hext Hc' Hlast Hstd) as [built [Hbt Hnamed]].
    rewrite typeExtensionsMap_collect in Hbt.
    exists (built (map typeName (sc_types c))). split; [|split].
    + apply (typesNamed_in (typeDefName td)). rewrite Hnamed. left. reflexivity.
    + exact (proj1 (buildType_ok_shape _ _ _ Hbt _)).
    + exact (buildType_bodies _ _ _ Hbt).
Qed.

Lemma C3_unknown_type_only_eager_witness :
  (extendSchemaImpl sampleHeap 0 docMissingRoot noOptions = Err (UnknownType "Missing") /\
   isStdName "Missing" = false /\
   ~ In "Missing" (map typeName (sc_types sampleConfig)) /\
   ~ In "Missing" (map typeDefName (typeDefs (collect docMissingRoot))) /\
   ((exists sd, schemaDef (collect docMissingRoot) = Some sd /\ In "Missing" (declaredRootNames sd)) \/
    (exists d, In d (directiveDefs (collect docMissingRoot)) /\ In "Missing" (directiveArgTypeNames d)))) /\
  (exists h' l', extendSchemaImpl sampleHeap 0 docUnknownField noOptions = Ok (h', l')) /\
  (exists t, In t (sc_types sampleUnknownField) /\ typeName t = "A" /\
     readFields t = Some (Err (UnknownType "Unknown"))).
Proof.
  assert (Hb : Forall bodiesRead (sc_types sampleConfig)).
  { simpl. repeat apply Forall_cons; try apply Forall_nil; simpl;
      repeat split; eexists; reflexivity. }
  split; [|split].
  - split; [vm_compute; reflexivity|].
    apply (proj1 (proj2 (C3_unknown_type_only_eager sampleHeap 0 docMissingRoot noOptions sampleConfig
                           eq_refl Hb)) "Missing").
    vm_compute. reflexivity.
  - apply (proj1 (proj2 (proj2 (C3_unknown_type_only_eager sampleHeap 0 docUnknownField noOptions
                                  sampleConfig eq_refl Hb)))).
    vm_compute. reflexivity.
  - destruct (proj2 (proj2 (proj2 (C3_unknown_type_only_eager sampleHeap 0 docUnknownField noOptions
                                     sampleConfig eq_refl Hb)))
                (sampleHeap ++ [sampleUnknownField]) 1 sampleUnknownField
                (ObjectTypeDefinition (objectNode "A" [namedField "f" "Unknown"]))
                ltac:(vm_compute; reflexivity) eq_refl ltac:(vm_compute; reflexivity) eq_refl)
      as [t [Hin [Hname [Hf _]]]].
    exists t. split; [exact Hin|]. split; [exact Hname|].
    apply Hf. vm_compute. reflexivity.
Defined.

(** ** C5: builtin names *)



(** ** C8: a new definition replaces an existing type *)

(** C8: when a non-builtin type definition of the document, the last of its
    name, shares its name with a type of the snapshot, the collision is no
    error: the call succeeds whenever the eager checks pass, and in the
    configuration it returns the only type of that name is the type freshly
    built from the definition, read against the final registry. *)
Theorem C8_new_definition_replaces_existing h l doc options config td existing :
  nth_error h l = Some config ->
  In existing (sc_types config) ->
  typeName existing = typeDefName td ->
  isStdName (typeDefName td) = false ->
  lastTypeDefNamed (typeDefName td) (typeDefs (collect doc)) = Some td ->
  (Forall bodiesRead (sc_types config) -> eagerChecks config (collect doc) = true ->
     exists h' l', extendSchemaImpl h l doc options = Ok (h', l')) /\
  (forall h' l' c, extendSchemaImpl h l doc options = Ok (h', l') -> nth_error h' l' = Some c ->
     exists built,
       buildType (typeExtensionsMap (collect doc)) td = Ok built /\
       typesNamed (typeDefName td) (sc_types c) = [built (map typeName (sc_types c))]).
Proof.
  intros Hc _ _ Hstd Hlast. split.
  - intros Hb Hchk. exact (extendSchemaImpl_succeeds _ _ _ options _ Hc Hb Hchk).
  - intros h' l' c Hext Hc'. exact (extendSchemaImpl_newType _ _ _ _ _ _ _ _ Hext Hc' Hlast Hstd).
Qed.

Lemma C8_new_definition_replaces_existing_witness :
  (exists h' l', extendSchemaImpl sampleHeap 0 docRedefineT noOptions = Ok (h', l')) /\
  (exists built,
     buildType [] defT' = Ok built /\
     typesNamed "T" (sc_types sampleRedefined) = [built (map typeName (sc_types sampleRedefined))]).
Proof.
  assert (Hb : Forall bodiesRead (sc_types sampleConfig)).
  { simpl. repeat apply Forall_cons; try apply Forall_nil; simpl;
      repeat split; eexists; reflexivity. }
  destruct (C8_new_definition_replaces_existing sampleHeap 0 docRedefineT noOptions sampleConfig defT'
              (ObjectType "T" None (fun _ => Ok []) (fun _ => Ok [("a", stringField)]) None)
              eq_refl ltac:(simpl; right; right; left; reflexivity) eq_refl eq_refl
              ltac:(vm_compute; reflexivity)) as [Hok Hbuilt].
  split.
  - apply Hok; [exact Hb | vm_compute; reflexivity].
  - apply (Hbuilt (sampleHeap ++ [sampleRedefined]) 1 sampleRedefined); [vm_compute; reflexivity | reflexivity].
Defined.

(** ** X13: when a call succeeds *)


